(** * Simple_LineUp_Optimizer: the game simulator and the genetic optimizer

    A shallow embedding of [game_simulator.py], [lineup_optimizer.py],
    [genetic_optimizer.py] and the seeding code of [master_optimizer.py],
    followed by the properties of the specification that were checked
    against it.

    Conventions.
    - Python [int]s that come from the command line or the CSV file
      ([AB], the hit counts, [innings], [num_games], [lineup_size],
      [population_size], ...) are [Z]; [range(n)] runs [Z.to_nat n] times and
      [[x] * n] is [replicate (Z.to_nat n) x], both empty for negative [n].
      Counters that the code only ever increments from 0 ([outs], [runs])
      and list positions are [nat]; [batter_index] is such a position, 0 in
      the first inning and then what the inning before returned.
    - The process-wide generator [random] is a stream [rng : nat -> nat] of
      raw draws together with the position of the next draw, which is the
      state threaded through every computation ([Rand]).
      [randbelow n] is the raw draw reduced modulo [n].
    - A computation ends in [Done], in [Raise] (a Python exception) or in
      [OutOfFuel]: the budget of at-bats [fuel] of one inning ran out, which
      stands for a [while] loop that does not come back. *)

From Stdlib Require Import ZArith QArith Qcanon.
From stdpp Require Import base numbers strings gmap list.

Open Scope nat_scope.

(** ** Results and the random monad *)

Inductive exn := IndexError | KeyError | ValueError | StatisticsError.

Inductive result (A : Type) :=
  | Done (a : A)
  | Raise (e : exn)
  | OutOfFuel.
Arguments Done {A} a.
Arguments Raise {A} e.
Arguments OutOfFuel {A}.

Definition Rand (A : Type) : Type := nat → result (A * nat).

#[global] Instance rand_ret : MRet Rand := λ A a pos, Done (a, pos).

#[global] Instance rand_bind : MBind Rand := λ A B f m pos,
  match m pos with
  | Done (a, pos') => f a pos'
  | Raise e => Raise e
  | OutOfFuel => OutOfFuel
  end.

Definition raise {A} (e : exn) : Rand A := λ _, Raise e.
Definition out_of_fuel {A} : Rand A := λ _, OutOfFuel.

(** ** game_simulator.py *)

(** The outcome labels ['out'], ['1B'], ['2B'], ['3B'], ['HR']. *)
Inductive Outcome := OUT | SINGLE | DOUBLE | TRIPLE | HOME_RUN.

#[global] Instance Outcome_eq_dec : EqDecision Outcome.
Proof. solve_decision. Defined.

(** [class Player]: the attributes given to [__init__]; [hits] and [outs]
    are computed there once and never assigned again. *)
Record Player := {
  name : string;
  ab : Z;
  singles : Z;
  doubles : Z;
  triples : Z;
  homers : Z
}.

Definition hits (p : Player) : Z := (singles p + doubles p + triples p + homers p)%Z.
Definition outs (p : Player) : Z := (ab p - hits p)%Z.

Record Bases := {
  base1 : option Player;   (* bases[0] *)
  base2 : option Player;   (* bases[1] *)
  base3 : option Player    (* bases[2] *)
}.

(** The local variables of [simulate_inning]. *)
Record InningState := {
  bases : Bases;
  inning_outs : nat;
  runs : nat;
  current_batter : nat
}.

Record GameResult := {
  total_runs : nat;
  inning_scores : list nat;
  lineup_names : list string
}.

Definition scores (o : option Player) : nat :=
  match o with Some _ => 1 | None => 0 end.

(** [sum(1 for base in bases if base is not None)] *)
Definition occupied (b : Bases) : nat :=
  scores (base1 b) + scores (base2 b) + scores (base3 b).

Definition empty_bases : Bases :=
  {| base1 := None; base2 := None; base3 := None |}.

(** The token list built by [player_hit]. *)
Definition outcomes (player : Player) : list Outcome :=
  replicate (Z.to_nat (outs player)) OUT
  ++ replicate (Z.to_nat (singles player)) SINGLE
  ++ replicate (Z.to_nat (doubles player)) DOUBLE
  ++ replicate (Z.to_nat (triples player)) TRIPLE
  ++ replicate (Z.to_nat (homers player)) HOME_RUN.

(** The body of the [while] loop of [simulate_inning] after the draw:
    [n] is [len(lineup)], [player] the batter and [result] the outcome drawn. *)
Definition at_bat (n : nat) (player : Player) (result : Outcome)
    (st : InningState) : InningState :=
  let b := bases st in
  let next := (current_batter st + 1) mod n in
  match result with
  | OUT =>
      {| bases := b; inning_outs := inning_outs st + 1; runs := runs st;
         current_batter := next |}
  | SINGLE =>
      {| bases := {| base1 := Some player; base2 := base1 b; base3 := base2 b |};
         inning_outs := inning_outs st;
         runs := runs st + scores (base3 b);
         current_batter := next |}
  | DOUBLE =>
      {| bases := {| base1 := None; base2 := Some player; base3 := base1 b |};
         inning_outs := inning_outs st;
         runs := runs st + scores (base2 b) + scores (base3 b);
         current_batter := next |}
  | TRIPLE =>
      {| bases := {| base1 := None; base2 := None; base3 := Some player |};
         inning_outs := inning_outs st;
         runs := runs st + occupied b;
         current_batter := next |}
  | HOME_RUN =>
      {| bases := empty_bases;
         inning_outs := inning_outs st;
         runs := runs st + (occupied b + 1);
         current_batter := next |}
  end.

Definition initial_state (batter_index : nat) : InningState :=
  {| bases := empty_bases; inning_outs := 0; runs := 0;
     current_batter := batter_index |}.

Section Simulator.
Variable rng : nat → nat.
Variable fuel : nat.

(** [random._randbelow(n)], for [n > 0]. *)
Definition randbelow (n : nat) : Rand nat := λ pos, Done (rng pos mod n, S pos).

(** [random.choice(seq)]: [IndexError] on an empty sequence. *)
Definition choice {A} (seq : list A) : Rand A :=
  match seq with
  | [] => raise IndexError
  | _ :: _ =>
      j ← randbelow (length seq);
      match seq !! j with
      | Some x => mret x
      | None => raise IndexError
      end
  end.

Definition player_hit (player : Player) : Rand Outcome :=
  choice (outcomes player).

(** [while outs < 3: ...], at most [n] at-bats. *)
Fixpoint inning_loop (n : nat) (lineup : list Player) (st : InningState)
    : Rand InningState :=
  if decide (inning_outs st < 3) then
    match n with
    | 0 => out_of_fuel
    | S n' =>
        match lineup !! current_batter st with
        | None => raise IndexError
        | Some player =>
            result ← player_hit player;
            inning_loop n' lineup (at_bat (length lineup) player result st)
        end
    end
  else mret st.

Definition simulate_inning (lineup : list Player) (batter_index : nat)
    : Rand (nat * nat) :=
  st ← inning_loop fuel lineup (initial_state batter_index);
  mret (runs st, current_batter st).

(** [for inning in range(innings): ...] with [k] innings to go. *)
Fixpoint game_loop (k : nat) (lineup : list Player) (total : nat)
    (inning_scores : list nat) (batter_index : nat)
    : Rand (nat * list nat) :=
  match k with
  | 0 => mret (total, inning_scores)
  | S k' =>
      '(runs, batter_index') ← simulate_inning lineup batter_index;
      game_loop k' lineup (total + runs) (inning_scores ++ [runs]) batter_index'
  end.

Definition simulate_game (lineup : list Player) (innings : Z) : Rand GameResult :=
  '(total, inning_scores) ← game_loop (Z.to_nat innings) lineup 0 [] 0;
  mret {| total_runs := total; inning_scores := inning_scores;
          lineup_names := name <$> lineup |}.

(** What the next [n] at-bats draw, the batter at [batter_index] first and
    the draws taken from position [pos] of the stream on: [None] where
    the batter or the token does not exist. *)
Fixpoint at_bats (lineup : list Player) (batter_index pos n : nat)
    : list (option Outcome) :=
  match n with
  | 0 => []
  | S n' =>
      (player ← lineup !! batter_index;
       outcomes player !! (rng pos mod length (outcomes player)))
      :: at_bats lineup ((batter_index + 1) mod length lineup) (S pos) n'
  end.

(** How many of these at-bats are outs. *)
Definition outs_drawn (lineup : list Player) (batter_index pos n : nat) : nat :=
  length (filter (λ o, o = Some OUT) (at_bats lineup batter_index pos n)).
End Simulator.

(** The counts of a player, by label. *)
Definition count_of (p : Player) (o : Outcome) : Z :=
  match o with
  | OUT => outs p
  | SINGLE => singles p
  | DOUBLE => doubles p
  | TRIPLE => triples p
  | HOME_RUN => homers p
  end.

(** Section 3 of the specification: all counts are non-negative, the
    derived [outs] included. *)
Definition valid_counts (p : Player) : Prop :=
  (0 ≤ singles p ∧ 0 ≤ doubles p ∧ 0 ≤ triples p ∧ 0 ≤ homers p ∧ 0 ≤ outs p)%Z.

Definition valid_player (p : Player) : Prop := valid_counts p ∧ (0 < ab p)%Z.

(** ** The library functions the optimizers call *)

(** [statistics.mean] of a list of run totals. The exact quotient is kept
    (Python rounds it to the nearest float at the very end). *)
Definition mean (data : list nat) : result Qc :=
  match data with
  | [] => Raise StatisticsError
  | _ :: _ =>
      Done (Qc_of_Z (Z.of_nat (sum_list data)) / Qc_of_Z (Z.of_nat (length data)))%Qc
  end.

(** [max(l, key=key)]: the first of the greatest elements. *)
Definition max_by {A} (key : A → Qc) (l : list A) : option A :=
  match l with
  | [] => None
  | x :: l' =>
      Some (foldl (λ best y, if decide (key best < key y)%Qc then y else best) x l')
  end.

(** [l.index(x)] *)
Definition index (x : Qc) (l : list Qc) : option nat :=
  fst <$> list_find (λ y, y = x) l.

(** [sorted(l, key=key, reverse=True)]: a stable sort, greatest key first. *)
Fixpoint insert_desc {A} (key : A → Qc) (x : A) (l : list A) : list A :=
  match l with
  | [] => [x]
  | y :: l' =>
      if decide (key x < key y)%Qc then y :: insert_desc key x l' else x :: l
  end.

Definition sorted_desc {A} (key : A → Qc) (l : list A) : list A :=
  foldr (insert_desc key) [] l.

Definition lift {A} (r : result A) : Rand A := λ pos,
  match r with
  | Done a => Done (a, pos)
  | Raise e => Raise e
  | OutOfFuel => OutOfFuel
  end.

Section Random.
Variable rng : nat → nat.

(** [random.random()]: a 53-bit integer over [2^53]. *)
Definition random : Rand Qc := λ pos,
  Done ((Qc_of_Z (Z.of_nat (rng pos) mod 2 ^ 53) / Qc_of_Z (2 ^ 53))%Qc, S pos).

(** The loop of [random.sample] over a copy [pool] of the population:
    [j = randbelow(n - i); result[i] = pool[j]; pool[j] = pool[n - i - 1]],
    the live part of the pool being one shorter each time. (For populations
    of more than 21 elements CPython draws positions until [k] distinct ones
    are found instead, with the same distribution of the result.) *)
Fixpoint sample_loop {A} (k : nat) (pool : list A) : Rand (list A) :=
  match k with
  | 0 => mret []
  | S k' =>
      j ← randbelow rng (length pool);
      match pool !! j, pool !! (length pool - 1) with
      | Some x, Some y =>
          rest ← sample_loop k' (take (length pool - 1) (<[j := y]> pool));
          mret (x :: rest)
      | _, _ => raise IndexError
      end
  end.

(** [random.sample(population, k)] *)
Definition sample {A} (population : list A) (k : Z) : Rand (list A) :=
  if decide (0 ≤ k ∧ k ≤ Z.of_nat (length population))%Z
  then sample_loop (Z.to_nat k) population
  else raise ValueError.
End Random.

(** ** lineup_optimizer.py and genetic_optimizer.py

    A lineup is a list of references to [Player] objects. Python compares
    these objects by identity ([p not in segment]); [Ref] is the type of the
    references, with its decidable equality, and [deref] reads the object. *)

Record LineupResult (Ref : Type) := {
  lineup : list Ref;
  runs_per_game : list nat;
  mean_runs : Qc;
  total_games : nat
}.
Arguments lineup {Ref} _.
Arguments runs_per_game {Ref} _.
Arguments mean_runs {Ref} _.
Arguments total_games {Ref} _.

Record GeneticLineupOptimizer (Ref : Type) := {
  players : list Ref;
  lineup_size : Z;
  population_size : Z;
  mutation_rate : Qc;
  tournament_size : Z;
  population : list (list Ref);
  fitness_cache : gmap (list string) Qc
}.
Arguments players {Ref} _.
Arguments lineup_size {Ref} _.
Arguments population_size {Ref} _.
Arguments mutation_rate {Ref} _.
Arguments tournament_size {Ref} _.
Arguments population {Ref} _.
Arguments fitness_cache {Ref} _.

Section Optimizers.
Context {Ref : Type} `{EqDecision Ref}.
Variable deref : Ref → Player.
Variable rng : nat → nat.
Variable fuel : nat.

Local Abbreviation Optimizer := (GeneticLineupOptimizer Ref).

(** [LineupResult.__init__]; [std_dev] is a float square root and is left
    out, it cannot raise. *)
Definition new_LineupResult (lineup : list Ref) (runs_per_game : list nat)
    : result (LineupResult Ref) :=
  match mean runs_per_game with
  | Done m =>
      Done {| lineup := lineup; runs_per_game := runs_per_game;
              mean_runs := m; total_games := length runs_per_game |}
  | Raise e => Raise e
  | OutOfFuel => OutOfFuel
  end.

Definition generate_random_lineup (players : list Ref) (lineup_size : Z)
    : Rand (list Ref) :=
  let lineup_size :=
    if decide (Z.of_nat (length players) < lineup_size)%Z
    then Z.of_nat (length players) else lineup_size in
  sample rng players lineup_size.

(** [for _ in range(num_games): ...] with [k] games to go. *)
Fixpoint games_loop (k : nat) (lineup : list Player) (innings : Z)
    (runs_per_game : list nat) : Rand (list nat) :=
  match k with
  | 0 => mret runs_per_game
  | S k' =>
      game_result ← simulate_game rng fuel lineup innings;
      games_loop k' lineup innings (runs_per_game ++ [total_runs game_result])
  end.

Definition evaluate_lineup (lineup : list Ref) (num_games innings : Z)
    : Rand (LineupResult Ref) :=
  runs_per_game ← games_loop (Z.to_nat num_games) (deref <$> lineup) innings [];
  lift (new_LineupResult lineup runs_per_game).

(** [GeneticLineupOptimizer.__init__] *)
Definition new_optimizer (players : list Ref) (lineup_size population_size : Z)
    (mutation_rate : Qc) (tournament_size : Z) : Optimizer :=
  {| players := players;
     lineup_size := Z.min lineup_size (Z.of_nat (length players));
     population_size := population_size;
     mutation_rate := mutation_rate;
     tournament_size := tournament_size;
     population := [];
     fitness_cache := ∅ |}.

Definition set_population (self : Optimizer) (pop : list (list Ref)) : Optimizer :=
  {| players := players self; lineup_size := lineup_size self;
     population_size := population_size self;
     mutation_rate := mutation_rate self;
     tournament_size := tournament_size self;
     population := pop;
     fitness_cache := fitness_cache self |}.

Definition set_fitness_cache (self : Optimizer) (cache : gmap (list string) Qc)
    : Optimizer :=
  {| players := players self; lineup_size := lineup_size self;
     population_size := population_size self;
     mutation_rate := mutation_rate self;
     tournament_size := tournament_size self;
     population := population self;
     fitness_cache := cache |}.

Definition create_random_lineup (self : Optimizer) : Rand (list Ref) :=
  sample rng (players self) (lineup_size self).

(** [for _ in range(self.population_size): self.population.append(...)] *)
Fixpoint populate (k : nat) (self : Optimizer) (pop : list (list Ref))
    : Rand (list (list Ref)) :=
  match k with
  | 0 => mret pop
  | S k' =>
      lineup ← create_random_lineup self;
      populate k' self (pop ++ [lineup])
  end.

Definition initialize_population (self : Optimizer) : Rand Optimizer :=
  pop ← populate (Z.to_nat (population_size self)) self [];
  mret (set_population self pop).

(** [tuple(player.name for player in lineup)] *)
Definition lineup_key (lineup : list Ref) : list string :=
  (λ player, name (deref player)) <$> lineup.

Definition evaluate_fitness (self : Optimizer) (lineup : list Ref)
    (num_games innings : Z) : Rand (Qc * Optimizer) :=
  self' ← match fitness_cache self !! lineup_key lineup with
          | None =>
              result ← evaluate_lineup lineup num_games innings;
              mret (set_fitness_cache self
                      (<[lineup_key lineup := mean_runs result]> (fitness_cache self)))
          | Some _ => mret self
          end;
  match fitness_cache self' !! lineup_key lineup with
  | Some fitness => mret (fitness, self')
  | None => raise KeyError
  end.

Definition tournament_selection (self : Optimizer) (population : list (list Ref))
    (fitness_scores : list Qc) : Rand (list Ref) :=
  tournament_indices ←
    sample rng (seq 0 (length population)) (tournament_size self);
  tournament_fitness ←
    lift (foldr (λ i acc,
            match fitness_scores !! i, acc with
            | Some f, Done l => Done ((i, f) :: l)
            | None, Done _ => Raise IndexError
            | _, _ => acc
            end) (Done []) tournament_indices);
  match max_by snd tournament_fitness with
  | None => raise ValueError
  | Some (winner_index, _) =>
      match population !! winner_index with
      | Some lineup => mret lineup
      | None => raise IndexError
      end
  end.

(** [order_crossover] once the cut points are drawn, [start <= end <= size].
    [segment] is [parent1[start:end]], which [child[start:end]] holds from the
    slice assignment on, so that [p not in child[start:end]] is
    [p ∉ segment]. The first loop writes [parent2_filtered[0 .. start-1]] to
    [child[0 .. start-1]], the second one the next [size - end] elements of
    [parent2_filtered] to [child[end .. size-1]]; [p2_idx] runs over
    [start + (size - end)] positions of [parent2_filtered] in all, and
    reading past its end raises [IndexError]. The child returned is the
    list of the cells of [child], every one of them written. *)
Definition order_crossover_at (start end_ : nat) (parent1 parent2 : list Ref)
    : result (list Ref) :=
  let size := length parent1 in
  let segment := take (end_ - start) (drop start parent1) in
  let parent2_filtered := filter (λ p, p ∉ segment) parent2 in
  if decide (start + (size - end_) ≤ length parent2_filtered) then
    Done (take start parent2_filtered
          ++ segment
          ++ take (size - end_) (drop start parent2_filtered))
  else Raise IndexError.

Definition order_crossover (parent1 parent2 : list Ref) : Rand (list Ref) :=
  cuts ← sample rng (seq 0 (length parent1)) 2;
  match cuts with
  | [a; b] => lift (order_crossover_at (a `min` b) (a `max` b) parent1 parent2)
  | _ => raise ValueError
  end.

(** [lineup[i], lineup[j] = lineup[j], lineup[i]] *)
Definition swap (i j : nat) (lineup : list Ref) : result (list Ref) :=
  match lineup !! j, lineup !! i with
  | Some y, Some x => Done (<[j := x]> (<[i := y]> lineup))
  | _, _ => Raise IndexError
  end.

Definition swap_mutation (self : Optimizer) (lineup : list Ref) : Rand (list Ref) :=
  r ← random rng;
  if decide (r < mutation_rate self)%Qc then
    ij ← sample rng (seq 0 (length lineup)) 2;
    match ij with
    | [i; j] => lift (swap i j lineup)
    | _ => raise ValueError
    end
  else mret lineup.

(** [for lineup in self.population: ... fitness_scores.append(fitness)] *)
Fixpoint fitness_loop (lineups : list (list Ref)) (self : Optimizer)
    (num_games innings : Z) (fitness_scores : list Qc)
    : Rand (list Qc * Optimizer) :=
  match lineups with
  | [] => mret (fitness_scores, self)
  | lineup :: rest =>
      '(fitness, self') ← evaluate_fitness self lineup num_games innings;
      fitness_loop rest self' num_games innings (fitness_scores ++ [fitness])
  end.

(** [while len(new_population) < self.population_size: ...]: every pass
    appends one child, so [k], the number of passes to go, is
    [population_size - len(new_population)]. *)
Fixpoint offspring_loop (k : nat) (self : Optimizer) (fitness_scores : list Qc)
    (new_population : list (list Ref)) : Rand (list (list Ref)) :=
  match k with
  | 0 => mret new_population
  | S k' =>
      parent1 ← tournament_selection self (population self) fitness_scores;
      parent2 ← tournament_selection self (population self) fitness_scores;
      child ← order_crossover parent1 parent2;
      child ← swap_mutation self child;
      offspring_loop k' self fitness_scores (new_population ++ [child])
  end.

Definition evolve_generation (self : Optimizer) (num_games innings : Z)
    : Rand ((list Qc * Qc) * Optimizer) :=
  '(fitness_scores, self) ← fitness_loop (population self) self num_games innings [];
  match max_by id fitness_scores with
  | None => raise ValueError
  | Some best =>
      match index best fitness_scores with
      | None => raise ValueError
      | Some best_idx =>
          match population self !! best_idx with
          | None => raise IndexError
          | Some elite =>
              let new_population := [elite] in
              new_population ←
                offspring_loop
                  (Z.to_nat (population_size self - Z.of_nat (length new_population)))
                  self fitness_scores new_population;
              mret ((fitness_scores, best), set_population self new_population)
          end
      end
  end.

(** [for generation in range(generations): ...] *)
Fixpoint generations_loop (k : nat) (self : Optimizer) (num_games innings : Z)
    (best_fitness_history : list Qc) : Rand (list Qc * Optimizer) :=
  match k with
  | 0 => mret (best_fitness_history, self)
  | S k' =>
      '((_, best_fitness), self') ← evolve_generation self num_games innings;
      generations_loop k' self' num_games innings
        (best_fitness_history ++ [best_fitness])
  end.

(** The final evaluation [for lineup in self.population: ...] *)
Fixpoint final_loop (lineups : list (list Ref)) (num_games innings : Z)
    (final_results : list (LineupResult Ref)) : Rand (list (LineupResult Ref)) :=
  match lineups with
  | [] => mret final_results
  | lineup :: rest =>
      result ← evaluate_lineup lineup (num_games * 2) innings;
      final_loop rest num_games innings (final_results ++ [result])
  end.

(** [optimize]; of the printing under [verbose] only what can raise is
    kept: [best_fitness_history[0]] and [max(final_fitness_scores)]. *)
Definition optimize (self : Optimizer) (generations num_games innings : Z)
    (verbose : bool) : Rand (list (LineupResult Ref) * Optimizer) :=
  self ← initialize_population self;
  '(best_fitness_history, self) ←
    generations_loop (Z.to_nat generations) self num_games innings [];
  final_results ← final_loop (population self) num_games innings [];
  let sorted_results := sorted_desc mean_runs final_results in
  if verbose then
    match best_fitness_history, final_results with
    | [], _ => raise IndexError
    | _ :: _, [] => raise ValueError
    | _ :: _, _ :: _ => mret (sorted_results, self)
    end
  else mret (sorted_results, self).

(** ** master_optimizer.py: the seeding of the genetic phase *)

(** [while len(ga_optimizer.population) < population_size: ...], [k] passes
    to go. *)
Fixpoint pad_population (k : nat) (self : Optimizer) : Rand Optimizer :=
  match k with
  | 0 => mret self
  | S k' =>
      random_lineup ← create_random_lineup self;
      pad_population k' (set_population self (population self ++ [random_lineup]))
  end.

(** Lines 98-107 of [run_genetic_phase]. *)
Definition seed_population (ga_optimizer : Optimizer)
    (seed_lineups : list (LineupResult Ref)) (population_size : Z) : Rand Optimizer :=
  let ga_optimizer := set_population ga_optimizer (lineup <$> seed_lineups) in
  pad_population
    (Z.to_nat (population_size - Z.of_nat (length (population ga_optimizer))))
    ga_optimizer.

Definition run_genetic_phase (players : list Ref)
    (seed_lineups : list (LineupResult Ref)) (population_size generations : Z)
    (num_games lineup_size innings : Z) (mutation_rate : Qc) (tournament_size : Z)
    (verbose : bool) : Rand (list (LineupResult Ref)) :=
  let ga_optimizer :=
    new_optimizer players lineup_size population_size mutation_rate tournament_size in
  ga_optimizer ← seed_population ga_optimizer seed_lineups population_size;
  '(ga_results, _) ← optimize ga_optimizer generations num_games innings verbose;
  mret ga_results.
End Optimizers.

(** ** lineup_optimizer.py and master_optimizer.py: the random search and
    the two-phase run *)

(** [l[:n]]: the first [n] elements, all but the last [-n] for [n < 0]. *)
Definition slice_to {A} (n : Z) (l : list A) : list A :=
  if decide (0 ≤ n)%Z then take (Z.to_nat n) l
  else take (Z.to_nat (Z.of_nat (length l) + n)) l.

Section RandomSearch.
Context {Ref : Type} `{EqDecision Ref}.
Variable deref : Ref → Player.
Variable rng : nat → nat.
Variable fuel : nat.

(** [for i in range(num_lineups): ...] of [optimize_lineups], [k] lineups
    to go. *)
Fixpoint search_loop (k : nat) (players : list Ref) (lineup_size num_games innings : Z)
    (results : list (LineupResult Ref)) : Rand (list (LineupResult Ref)) :=
  match k with
  | 0 => mret results
  | S k' =>
      lineup ← generate_random_lineup rng players lineup_size;
      result ← evaluate_lineup deref rng fuel lineup num_games innings;
      search_loop k' players lineup_size num_games innings (results ++ [result])
  end.

Definition optimize_lineups (players : list Ref)
    (num_lineups num_games top_n lineup_size innings : Z)
    : Rand (list (LineupResult Ref)) :=
  results ← search_loop (Z.to_nat num_lineups) players lineup_size num_games innings [];
  let results := sorted_desc mean_runs results in
  mret (slice_to top_n results).

(** [MasterLineupOptimizer.run_random_phase]; under [verbose] the summary
    reads [random_results[0]]. *)
Definition run_random_phase (players : list Ref)
    (num_lineups num_games lineup_size innings seed_size : Z) (verbose : bool)
    : Rand (list (LineupResult Ref)) :=
  random_results ←
    optimize_lineups players num_lineups num_games seed_size lineup_size innings;
  if verbose then
    match random_results with
    | [] => raise IndexError
    | _ :: _ => mret random_results
    end
  else mret random_results.
End RandomSearch.

(** The dictionary [MasterLineupOptimizer.optimize] returns, without the
    timings. *)
Record MasterResults (Ref : Type) := {
  best_lineup : option (LineupResult Ref);
  ga_results : list (LineupResult Ref);
  random_results : list (LineupResult Ref);
  all_combined : list (LineupResult Ref)
}.
Arguments best_lineup {Ref} _.
Arguments ga_results {Ref} _.
Arguments random_results {Ref} _.
Arguments all_combined {Ref} _.

Section Master.
Context {Ref : Type} `{EqDecision Ref}.
Variable deref : Ref → Player.
Variable rng : nat → nat.
Variable fuel : nat.

(** [MasterLineupOptimizer.optimize] called with [verbose=False], so that
    neither phase prints and [print_final_summary] is not run. *)
Definition master_optimize (players : list Ref)
    (num_random_lineups seed_size population_size generations num_games : Z)
    (lineup_size innings : Z) (mutation_rate : Qc) (tournament_size : Z)
    : Rand (MasterResults Ref) :=
  random_results ←
    run_random_phase deref rng fuel players num_random_lineups num_games lineup_size
      innings seed_size false;
  ga_results ←
    run_genetic_phase deref rng fuel players random_results population_size
      generations num_games lineup_size innings mutation_rate tournament_size false;
  let all_results := sorted_desc mean_runs (random_results ++ ga_results) in
  mret {| best_lineup := head all_results;
          ga_results := ga_results;
          random_results := random_results;
          all_combined := all_results |}.
End Master.

(** ** Notions of the specification *)

(** The innings of a game played in a row: the cursor and the stream
    position an inning returns are those the next one starts from. *)
Inductive innings_played (rng : nat → nat) (fuel : nat) (lineup : list Player)
    : nat → nat → list nat → nat → nat → Prop :=
  | played_none b pos : innings_played rng fuel lineup b pos [] b pos
  | played_next b pos runs b' pos' scores b'' pos'' :
      simulate_inning rng fuel lineup b pos = Done ((runs, b'), pos') →
      innings_played rng fuel lineup b' pos' scores b'' pos'' →
      innings_played rng fuel lineup b pos (runs :: scores) b'' pos''.

(** A lineup over a roster: [size] distinct players of the roster. *)
Definition valid_lineup {Ref : Type} (players : list Ref) (size : Z)
    (lineup : list Ref) : Prop :=
  NoDup lineup ∧ Z.of_nat (length lineup) = size ∧ lineup ⊆ players.

(** Results ranked by mean runs, greatest first. *)
Definition ranked {Ref : Type} (results : list (LineupResult Ref)) : Prop :=
  ∀ i j a b, i ≤ j → results !! i = Some a → results !! j = Some b →
    (mean_runs b ≤ mean_runs a)%Qc.

(** What has become of the batters of an inning so far: out, home or on
    base. *)
Definition accounted (st : InningState) : nat :=
  inning_outs st + runs st + occupied (bases st).

(** The list [tournament_fitness] of [tournament_selection]:
    [[(i, fitness_scores[i]) for i in tournament_indices]]. *)
Definition tournament_entries (fitness_scores : list Qc) (indices : list nat)
    : result (list (nat * Qc)) :=
  foldr (λ i acc,
           match fitness_scores !! i, acc with
           | Some f, Done l => Done ((i, f) :: l)
           | None, Done _ => Raise IndexError
           | _, _ => acc
           end) (Done []) indices.

(** The population holds a lineup whose cached fitness is [v]. *)
Definition holds_fitness {Ref : Type} (deref : Ref → Player)
    (self : GeneticLineupOptimizer Ref) (v : Qc) : Prop :=
  ∃ lineup, lineup ∈ population self
            ∧ fitness_cache self !! lineup_key deref lineup = Some v.

(** ** Players and lineups for the examples *)

#[global] Instance Player_eq_dec : EqDecision Player.
Proof. solve_decision. Defined.

Definition script (draws : list nat) : nat → nat := λ pos, nth pos draws 0.

Definition hitter : Player :=
  {| name := "Avery"; ab := 10; singles := 3; doubles := 0; triples := 0; homers := 0 |}.

(** One hit in two at-bats: draw 0 is the out, draw 1 the single. *)
Definition even_hitter (n : string) : Player :=
  {| name := n; ab := 2; singles := 1; doubles := 0; triples := 0; homers := 0 |}.

Definition trio : list Player :=
  [even_hitter "Ada"; even_hitter "Bo"; even_hitter "Cy"].

(** A player who never makes an out. *)
Definition slugger : Player :=
  {| name := "Dee"; ab := 1; singles := 1; doubles := 0; triples := 0; homers := 0 |}.

(** Bases loaded by the three players of [lineup], two outs. *)
Definition loaded (lineup : list Player) : InningState :=
  {| bases := {| base1 := lineup !! 2; base2 := lineup !! 1; base3 := lineup !! 0 |};
     inning_outs := 2; runs := 0; current_batter := 0 |}.

(** Two players who always make an out. *)
Definition ann : Player :=
  {| name := "Ann"; ab := 1; singles := 0; doubles := 0; triples := 0; homers := 0 |}.
Definition bea : Player :=
  {| name := "Bea"; ab := 1; singles := 0; doubles := 0; triples := 0; homers := 0 |}.

Definition zeros : nat → nat := λ _, 0.

(** The result of the random search handed to the genetic phase. *)
Definition seed : LineupResult Player :=
  {| lineup := [bea; ann]; runs_per_game := [0]; mean_runs := 0%Qc; total_games := 1 |}.

Definition pair_optimizer : GeneticLineupOptimizer Player :=
  set_population (new_optimizer [ann; bea] 2 2 0%Qc 1) [[ann; bea]; [bea; ann]].

(** * Properties of the simulator and of the optimizer *)

(** ** The random monad *)

Lemma bind_Done {A B} (m : Rand A) (f : A → Rand B) pos a pos' :
  m pos = Done (a, pos') → (m ≫= f) pos = f a pos'.
Proof. intros Hm. unfold mbind, rand_bind. by rewrite Hm. Qed.

Lemma bind_Done_inv {A B} (m : Rand A) (f : A → Rand B) pos r :
  (m ≫= f) pos = Done r → ∃ a pos', m pos = Done (a, pos') ∧ f a pos' = Done r.
Proof.
  unfold mbind, rand_bind. destruct (m pos) as [[a pos']| |]; [eauto|done..].
Qed.

Lemma ret_Done {A} (a : A) pos : (mret a : Rand A) pos = Done (a, pos).
Proof. done. Qed.

Lemma lift_Done_inv {A} (r : result A) pos a pos' :
  lift r pos = Done (a, pos') → r = Done a ∧ pos' = pos.
Proof. destruct r; intros; by simplify_eq/=. Qed.

(** ** The outcome sampler *)

Lemma filter_replicate_eq (o x : Outcome) n :
  length (filter (λ y, y = o) (replicate n x)) = if decide (x = o) then n else 0.
Proof.
  induction n as [|n IH]; simpl.
  - by case_decide.
  - rewrite filter_cons. destruct (decide (x = o)); simpl; by rewrite IH.
Qed.

Lemma outcomes_count (p : Player) (o : Outcome) :
  length (filter (λ y, y = o) (outcomes p)) = Z.to_nat (count_of p o).
Proof.
  unfold outcomes. rewrite !filter_app, !length_app, !filter_replicate_eq.
  destruct o; repeat case_decide; simplify_eq; simpl; lia.
Qed.

Lemma outcomes_length (p : Player) :
  valid_counts p → length (outcomes p) = Z.to_nat (ab p).
Proof.
  intros (?&?&?&?&Ho). unfold outcomes. rewrite !length_app, !length_replicate.
  unfold outs, hits in *. lia.
Qed.

Lemma filter_iff_elem {A} (P Q : A → Prop) `{!∀ x, Decision (P x), !∀ x, Decision (Q x)}
    (l : list A) :
  (∀ x, x ∈ l → (P x ↔ Q x)) → filter P l = filter Q l.
Proof.
  induction l as [|a l IH]; intros HPQ; [done|].
  rewrite !filter_cons.
  rewrite IH by (intros x Hx; apply HPQ; by right).
  destruct (decide (P a)) as [HP|HP], (decide (Q a)) as [HQ|HQ]; try done;
    exfalso; apply (HPQ a) in HP || apply (HPQ a) in HQ; try done; by left.
Qed.

(** The positions of a list that hold [o] are as many as its occurrences. *)
Lemma positions_count {A} `{EqDecision A} (l : list A) (o : A) :
  length (filter (λ d, l !! d = Some o) (seq 0 (length l)))
  = length (filter (λ y, y = o) l).
Proof.
  induction l as [|x l IH] using rev_ind; [done|].
  rewrite length_app, Nat.add_1_r, seq_S, !filter_app, !length_app. simpl.
  f_equal.
  - rewrite <- IH. f_equal. apply filter_iff_elem.
    intros d [_ Hd]%elem_of_seq. by rewrite lookup_app_l by lia.
  - rewrite !filter_cons, !filter_nil.
    rewrite list_lookup_middle by done.
    destruct (decide (Some x = Some o)), (decide (x = o)); naive_solver.
Qed.

Lemma player_hit_Done rng (p : Player) pos :
  outcomes p ≠ [] →
  ∃ o, player_hit rng p pos = Done (o, S pos)
       ∧ outcomes p !! (rng pos mod length (outcomes p)) = Some o.
Proof.
  intros Hne. unfold player_hit, choice.
  destruct (outcomes p) as [|x l] eqn:Hl; [done|].
  set (n := length (x :: l)).
  assert (Hlt : rng pos mod n < n) by (apply Nat.mod_upper_bound; done).
  apply lookup_lt_is_Some_2 in Hlt as [o Ho].
  exists o. split; [|done].
  unfold mbind, rand_bind, randbelow. fold n. by rewrite Ho.
Qed.

Lemma player_hit_empty rng (p : Player) pos :
  outcomes p = [] → player_hit rng p pos = Raise IndexError.
Proof. intros Hl. unfold player_hit, choice. by rewrite Hl. Qed.

Lemma valid_player_outcomes (p : Player) : valid_player p → outcomes p ≠ [].
Proof.
  intros [Hv Hab] Hl. apply outcomes_length in Hv.
  rewrite Hl in Hv. change (length []) with 0 in Hv. lia.
Qed.

(** C8. The outcome sampler draws from a token list that holds exactly the
    player's count of every label, [AB] tokens in all; each of the [AB]
    equally likely positions [randbelow] can return selects one token, so
    a label is drawn with probability count over [AB]; a draw succeeds for
    every player with [AB > 0] and raises exactly when [AB = 0]. *)
Theorem player_hit_sampler (p : Player) :
  valid_counts p →
  length (outcomes p) = Z.to_nat (ab p)
  ∧ (∀ o, length (filter (λ y, y = o) (outcomes p)) = Z.to_nat (count_of p o))
  ∧ (∀ o, length (filter (λ d, outcomes p !! d = Some o) (seq 0 (Z.to_nat (ab p))))
          = Z.to_nat (count_of p o))
  ∧ (∀ rng pos, (0 < ab p)%Z →
       ∃ o, player_hit rng p pos = Done (o, S pos)
            ∧ outcomes p !! (rng pos mod Z.to_nat (ab p)) = Some o)
  ∧ (∀ rng pos, (∃ e, player_hit rng p pos = Raise e) ↔ ab p = 0%Z).
Proof.
  intros Hv. pose proof (outcomes_length p Hv) as Hlen.
  split_and!.
  - done.
  - apply outcomes_count.
  - intros o. rewrite <- Hlen, positions_count. apply outcomes_count.
  - intros rng pos Hab. rewrite <- Hlen.
    apply player_hit_Done, valid_player_outcomes. by split.
  - intros rng pos. split.
    + intros [e He].
      destruct (decide (outcomes p = [])) as [Hl|Hl].
      * rewrite Hl in Hlen. change (length []) with 0 in Hlen.
        destruct Hv as (?&?&?&?&?). unfold outs, hits in *. lia.
      * destruct (player_hit_Done rng p pos Hl) as (o & Ho & _). congruence.
    + intros Hab. exists IndexError. apply player_hit_empty.
      apply length_zero_iff_nil. rewrite Hlen, Hab. done.
Qed.

Lemma player_hit_sampler_witness :
  valid_counts hitter
  ∧ length (outcomes hitter) = 10
  ∧ length (filter (λ y, y = SINGLE) (outcomes hitter)) = 3.
Proof.
  assert (Hv : valid_counts hitter) by (unfold valid_counts, outs, hits; simpl; lia).
  destruct (player_hit_sampler hitter Hv) as (Hlen & Hcount & _).
  split_and!; [exact Hv | exact Hlen | exact (Hcount SINGLE)].
Defined.

(** ** The inning state machine *)

Lemma inning_loop_step rng n lineup st pos player :
  inning_outs st < 3 →
  lineup !! current_batter st = Some player →
  inning_loop rng (S n) lineup st pos
  = (result ← player_hit rng player;
     inning_loop rng n lineup (at_bat (length lineup) player result st)) pos.
Proof. intros Ho Hp. simpl. case_decide; [|done]. by rewrite Hp. Qed.

Lemma inning_loop_end rng n lineup st pos :
  ¬ inning_outs st < 3 → inning_loop rng n lineup st pos = Done (st, pos).
Proof. intros Ho. destruct n; simpl; by case_decide. Qed.

Lemma inning_loop_draw rng n lineup st pos player o :
  inning_outs st < 3 →
  lineup !! current_batter st = Some player →
  outcomes player !! (rng pos mod length (outcomes player)) = Some o →
  inning_loop rng (S n) lineup st pos
  = inning_loop rng n lineup (at_bat (length lineup) player o st) (S pos).
Proof.
  intros Ho Hp Hd. rewrite (inning_loop_step _ _ _ _ _ player) by done.
  assert (Hne : outcomes player ≠ []) by (intros Hl; by rewrite Hl in Hd).
  destruct (player_hit_Done rng player pos Hne) as (o' & Hhit & Hd').
  rewrite Hd in Hd'. injection Hd' as <-.
  by rewrite (bind_Done _ _ _ _ _ Hhit).
Qed.

Lemma at_bat_current_batter n player o st :
  current_batter (at_bat n player o st) = (current_batter st + 1) mod n.
Proof. by destruct o. Qed.

Lemma at_bat_inning_outs n player o st :
  inning_outs (at_bat n player o st)
  = inning_outs st + (if decide (o = OUT) then 1 else 0).
Proof. destruct o; simpl; lia. Qed.

(** C4. One pass of the loop of [simulate_inning], from a state with fewer
    than three outs and batter [B], draws [B]'s outcome and moves to
    [at_bat], which follows the transition table of the inning state
    machine and advances the cursor by one modulo the lineup length. *)
Theorem at_bat_transition_table (lineup : list Player) (st : InningState) (B : Player) :
  inning_outs st < 3 →
  lineup !! current_batter st = Some B →
  let n := length lineup in
  let b := bases st in
  (∀ rng k pos,
     inning_loop rng (S k) lineup st pos
     = (result ← player_hit rng B;
        inning_loop rng k lineup (at_bat n B result st)) pos)
  ∧ (∀ o, current_batter (at_bat n B o st) = (current_batter st + 1) mod n)
  ∧ (∀ o, o ≠ OUT → inning_outs (at_bat n B o st) = inning_outs st)
  ∧ (inning_outs (at_bat n B OUT st) = inning_outs st + 1
     ∧ bases (at_bat n B OUT st) = b
     ∧ runs (at_bat n B OUT st) = runs st)
  ∧ (runs (at_bat n B SINGLE st) = runs st + (if base3 b is Some _ then 1 else 0)
     ∧ bases (at_bat n B SINGLE st)
       = {| base1 := Some B; base2 := base1 b; base3 := base2 b |})
  ∧ (runs (at_bat n B DOUBLE st)
     = runs st + (if base2 b is Some _ then 1 else 0)
               + (if base3 b is Some _ then 1 else 0)
     ∧ bases (at_bat n B DOUBLE st)
       = {| base1 := None; base2 := Some B; base3 := base1 b |})
  ∧ (runs (at_bat n B TRIPLE st)
     = runs st + length (filter is_Some [base1 b; base2 b; base3 b])
     ∧ bases (at_bat n B TRIPLE st)
       = {| base1 := None; base2 := None; base3 := Some B |})
  ∧ (runs (at_bat n B HOME_RUN st)
     = runs st + length (filter is_Some [base1 b; base2 b; base3 b]) + 1
     ∧ bases (at_bat n B HOME_RUN st)
       = {| base1 := None; base2 := None; base3 := None |}).
Proof.
  intros Ho HB n b.
  assert (Hocc : occupied b = length (filter is_Some [base1 b; base2 b; base3 b])).
  { unfold occupied. by destruct (base1 b), (base2 b), (base3 b). }
  split_and!; try done.
  - intros rng k pos. by apply inning_loop_step.
  - intros o. apply at_bat_current_batter.
  - intros o Hne. rewrite at_bat_inning_outs. case_decide; [done|lia].
  - change (runs st + occupied b = runs st + length (filter is_Some [base1 b; base2 b; base3 b])).
    by rewrite Hocc.
  - change (runs st + (occupied b + 1)
            = runs st + length (filter is_Some [base1 b; base2 b; base3 b]) + 1).
    rewrite Hocc. lia.
Qed.

Lemma at_bat_transition_table_witness :
  inning_outs (loaded [hitter; hitter; hitter]) < 3
  ∧ runs (at_bat 3 hitter HOME_RUN (loaded [hitter; hitter; hitter])) = 4.
Proof.
  assert (Ho : inning_outs (loaded [hitter; hitter; hitter]) < 3) by (simpl; lia).
  assert (HB : [hitter; hitter; hitter] !! current_batter (loaded [hitter; hitter; hitter])
               = Some hitter) by reflexivity.
  destruct (at_bat_transition_table _ _ _ Ho HB) as (_&_&_&_&_&_&_&Hhr&_).
  split; [exact Ho | exact Hhr].
Defined.

(** The first of the next at-bats, then the others. *)
Lemma outs_drawn_S rng lineup b pos n :
  outs_drawn rng lineup b pos (S n)
  = (if decide ((lineup !! b ≫= λ player,
                  outcomes player !! (rng pos mod length (outcomes player)))
                = Some OUT) then 1 else 0)
    + outs_drawn rng lineup ((b + 1) mod length lineup) (S pos) n.
Proof.
  unfold outs_drawn. simpl. rewrite filter_cons. by case_decide.
Qed.

Lemma mod_succ_add b m n : ((b + 1) mod n + m) mod n = (b + S m) mod n.
Proof.
  destruct n as [|n]; [simpl; lia|].
  rewrite Nat.Div0.add_mod_idemp_l. f_equal. lia.
Qed.

(** Enough outs among the next [n] draws: the loop ends after [m ≤ n]
    at-bats, for every budget of at least [m]. *)
Lemma inning_loop_terminates rng lineup n : ∀ st pos,
  Forall valid_player lineup →
  current_batter st < length lineup →
  inning_outs st ≤ 3 →
  3 ≤ inning_outs st + outs_drawn rng lineup (current_batter st) pos n →
  ∃ m st',
    m ≤ n
    ∧ inning_outs st + outs_drawn rng lineup (current_batter st) pos m = 3
    ∧ inning_outs st' = 3
    ∧ current_batter st' = (current_batter st + m) mod length lineup
    ∧ ∀ k, m ≤ k → inning_loop rng k lineup st pos = Done (st', pos + m).
Proof.
  induction n as [|n IH]; intros st pos Hvalid Hb Hle Hdrawn.
  - exists 0, st. unfold outs_drawn in *. simpl in *.
    split_and!; [lia..| |].
    + rewrite Nat.add_0_r. by rewrite Nat.mod_small.
    + intros k _. rewrite Nat.add_0_r. apply inning_loop_end. lia.
  - destruct (decide (inning_outs st < 3)) as [Hlt|Hge].
    2:{ exists 0, st. unfold outs_drawn. simpl.
        split_and!; [lia..| |].
        - rewrite Nat.add_0_r. by rewrite Nat.mod_small.
        - intros k _. rewrite Nat.add_0_r. by apply inning_loop_end. }
    destruct (lookup_lt_is_Some_2 lineup _ Hb) as [player Hp].
    assert (Hvp : valid_player player).
    { eapply Forall_lookup_1; eauto. }
    destruct (player_hit_Done rng player pos (valid_player_outcomes _ Hvp))
      as (o & _ & Hd).
    set (st1 := at_bat (length lineup) player o st).
    rewrite outs_drawn_S, Hp in Hdrawn. simpl in Hdrawn. rewrite Hd in Hdrawn.
    assert (Hcb : current_batter st1 = (current_batter st + 1) mod length lineup)
      by apply at_bat_current_batter.
    assert (Hos : inning_outs st1
                  = inning_outs st + (if decide (o = OUT) then 1 else 0))
      by apply at_bat_inning_outs.
    assert (Hdec : (if decide (Some o = Some OUT) then 1 else 0)
                   = (if decide (o = OUT) then 1 else 0)).
    { repeat case_decide; naive_solver. }
    rewrite Hdec in Hdrawn.
    destruct (IH st1 (S pos)) as (m & st' & Hm & Hthree & Hst' & Hcur & Hrun).
    + done.
    + rewrite Hcb. apply Nat.mod_upper_bound. lia.
    + rewrite Hos. case_decide; lia.
    + rewrite Hos, Hcb. lia.
    + exists (S m), st'. split_and!.
      * lia.
      * rewrite outs_drawn_S, Hp. simpl. rewrite Hd, Hdec.
        rewrite Hos, Hcb in Hthree. lia.
      * done.
      * rewrite Hcur, Hcb. apply mod_succ_add.
      * intros [|k] Hk; [lia|].
        rewrite (inning_loop_draw _ _ _ _ _ player o) by done.
        fold st1. rewrite Hrun by lia. do 2 f_equal. lia.
Qed.

(** Fewer than three outs within the budget: the budget runs out. *)
Lemma inning_loop_out_of_fuel rng lineup n : ∀ st pos,
  Forall valid_player lineup →
  current_batter st < length lineup →
  inning_outs st + outs_drawn rng lineup (current_batter st) pos n < 3 →
  inning_loop rng n lineup st pos = OutOfFuel.
Proof.
  induction n as [|n IH]; intros st pos Hvalid Hb Hdrawn.
  - unfold outs_drawn in Hdrawn. simpl in *. case_decide; [done|lia].
  - destruct (lookup_lt_is_Some_2 lineup _ Hb) as [player Hp].
    assert (Hvp : valid_player player).
    { eapply Forall_lookup_1; eauto. }
    destruct (player_hit_Done rng player pos (valid_player_outcomes _ Hvp))
      as (o & _ & Hd).
    rewrite outs_drawn_S, Hp in Hdrawn. simpl in Hdrawn. rewrite Hd in Hdrawn.
    assert (Hdec : (if decide (Some o = Some OUT) then 1 else 0)
                   = (if decide (o = OUT) then 1 else 0)).
    { repeat case_decide; naive_solver. }
    rewrite Hdec in Hdrawn.
    rewrite (inning_loop_draw _ _ _ _ _ player o) by (done || lia).
    apply IH; [done| |].
    + rewrite at_bat_current_batter. apply Nat.mod_upper_bound. lia.
    + rewrite at_bat_inning_outs, at_bat_current_batter. lia.
Qed.

Lemma simulate_inning_Done rng fuel lineup b pos st pos' :
  inning_loop rng fuel lineup (initial_state b) pos = Done (st, pos') →
  simulate_inning rng fuel lineup b pos = Done ((runs st, current_batter st), pos').
Proof. intros Hloop. unfold simulate_inning. by rewrite (bind_Done _ _ _ _ _ Hloop). Qed.

Lemma simulate_inning_out_of_fuel rng fuel lineup b pos :
  inning_loop rng fuel lineup (initial_state b) pos = OutOfFuel →
  simulate_inning rng fuel lineup b pos = OutOfFuel.
Proof. intros Hloop. unfold simulate_inning, mbind, rand_bind. by rewrite Hloop. Qed.

(** C2, amended. With valid players, [simulate_inning] comes back exactly
    when the stream draws a third out for the batters due up: it then stops
    at the at-bat [m] of the third out and returns the runs and the cursor
    [(batter_index + m) mod len(lineup)], whatever the budget beyond [m];
    while fewer than three outs have been drawn the loop is still running. *)
Theorem simulate_inning_terminates rng (lineup : list Player) (batter_index pos : nat) :
  Forall valid_player lineup →
  batter_index < length lineup →
  (∀ n, 3 ≤ outs_drawn rng lineup batter_index pos n →
     ∃ m runs,
       m ≤ n
       ∧ outs_drawn rng lineup batter_index pos m = 3
       ∧ ∀ fuel, m ≤ fuel →
           simulate_inning rng fuel lineup batter_index pos
           = Done ((runs, (batter_index + m) mod length lineup), pos + m))
  ∧ (∀ fuel, outs_drawn rng lineup batter_index pos fuel < 3 →
       simulate_inning rng fuel lineup batter_index pos = OutOfFuel).
Proof.
  intros Hvalid Hb. split.
  - intros n Hn.
    destruct (inning_loop_terminates rng lineup n (initial_state batter_index) pos)
      as (m & st' & Hm & Hthree & _ & Hcur & Hrun); [done..|simpl; lia|simpl; lia|].
    exists m, (runs st'). simpl in *. split_and!; [done..|].
    intros fuel Hfuel. rewrite <- Hcur. apply simulate_inning_Done, Hrun, Hfuel.
  - intros fuel Hfuel. apply simulate_inning_out_of_fuel, inning_loop_out_of_fuel; done.
Qed.

Lemma valid_player_even_hitter n : valid_player (even_hitter n).
Proof. unfold valid_player, valid_counts, outs, hits. simpl. lia. Qed.

Lemma simulate_inning_terminates_witness :
  Forall valid_player trio
  ∧ 0 < length trio
  ∧ (∃ m runs,
       m ≤ 6
       ∧ outs_drawn (script [1; 1; 1; 0; 0; 0]) trio 0 0 m = 3
       ∧ ∀ fuel, m ≤ fuel →
           simulate_inning (script [1; 1; 1; 0; 0; 0]) fuel trio 0 0
           = Done ((runs, (0 + m) mod length trio), 0 + m))
  ∧ simulate_inning (script [1; 1; 1; 0; 0; 0]) 5 trio 0 0 = OutOfFuel.
Proof.
  assert (Hvalid : Forall valid_player trio).
  { repeat constructor; apply valid_player_even_hitter. }
  assert (Hb : 0 < length trio) by (simpl; lia).
  destruct (simulate_inning_terminates (script [1; 1; 1; 0; 0; 0]) trio 0 0 Hvalid Hb)
    as [Hdone Hout].
  split_and!.
  - exact Hvalid.
  - exact Hb.
  - apply Hdone. vm_compute. lia.
  - apply Hout. vm_compute. lia.
Defined.

(** C2 as stated fails: a valid lineup that never comes back. *)
Lemma simulate_inning_never_returns :
  Forall valid_player [slugger]
  ∧ ∀ fuel, simulate_inning (λ _, 0) fuel [slugger] 0 0 = OutOfFuel.
Proof.
  assert (Hvalid : Forall valid_player [slugger]).
  { repeat constructor; unfold valid_counts, outs, hits; simpl; lia. }
  split; [done|]. intros fuel.
  apply simulate_inning_out_of_fuel, inning_loop_out_of_fuel; [done|simpl; lia|].
  assert (Hnone : ∀ n pos, outs_drawn (λ _, 0) [slugger] 0 pos n = 0).
  { induction n as [|n IH]; intros pos; [done|].
    rewrite outs_drawn_S. change ((0 + 1) mod length [slugger]) with 0.
    by rewrite IH. }
  simpl. rewrite Hnone. lia.
Qed.

Lemma singles_then_outs rng fuel (p0 p1 p2 : Player) (pos : nat) :
  at_bats rng [p0; p1; p2] 0 pos 6 = Some <$> [SINGLE; SINGLE; SINGLE; OUT; OUT; OUT] →
  6 ≤ fuel →
  inning_loop rng fuel [p0; p1; p2] (initial_state 0) pos
  = Done ({| bases := {| base1 := Some p2; base2 := Some p1; base3 := Some p0 |};
             inning_outs := 3; runs := 0; current_batter := 0 |}, pos + 6).
Proof.
  intros Hscript Hfuel. simpl in Hscript.
  injection Hscript as H0 H1 H2 H3 H4 H5.
  do 6 (destruct fuel as [|fuel]; [lia|]).
  replace (pos + 6) with (S (S (S (S (S (S pos)))))) by lia.
  rewrite (inning_loop_draw _ _ _ _ _ p0 SINGLE) by (done || simpl; lia).
  rewrite (inning_loop_draw _ _ _ _ _ p1 SINGLE) by (done || simpl; lia).
  rewrite (inning_loop_draw _ _ _ _ _ p2 SINGLE) by (done || simpl; lia).
  rewrite (inning_loop_draw _ _ _ _ _ p0 OUT) by (done || simpl; lia).
  rewrite (inning_loop_draw _ _ _ _ _ p1 OUT) by (done || simpl; lia).
  rewrite (inning_loop_draw _ _ _ _ _ p2 OUT) by (done || simpl; lia).
  by rewrite inning_loop_end by (simpl; lia).
Qed.

(** C3, amended. Three singles load the bases without a run, and the three
    outs that follow end the inning: no run scores, and the first batter
    of a three-player lineup is due up again. *)
Theorem three_singles_three_outs rng fuel (lineup : list Player) (pos : nat) :
  length lineup = 3 →
  at_bats rng lineup 0 pos 6 = Some <$> [SINGLE; SINGLE; SINGLE; OUT; OUT; OUT] →
  6 ≤ fuel →
  simulate_inning rng fuel lineup 0 pos = Done ((0, 0), pos + 6).
Proof.
  intros Hlen Hscript Hfuel.
  destruct lineup as [|p0 [|p1 [|p2 [|]]]]; try done.
  by rewrite (simulate_inning_Done _ _ _ _ _ _ _ (singles_then_outs _ _ _ _ _ _ Hscript Hfuel)).
Qed.

Lemma three_singles_three_outs_witness :
  at_bats (script [1; 1; 1; 0; 0; 0]) trio 0 0 6
    = Some <$> [SINGLE; SINGLE; SINGLE; OUT; OUT; OUT]
  ∧ simulate_inning (script [1; 1; 1; 0; 0; 0]) 6 trio 0 0 = Done ((0, 0), 6).
Proof.
  split; [reflexivity|].
  apply (three_singles_three_outs (script [1; 1; 1; 0; 0; 0]) 6 trio 0);
    [reflexivity | reflexivity | lia].
Defined.

(** C3 as stated fails: the sequence scores no run, not one. *)
Lemma three_singles_score_no_run :
  at_bats (script [1; 1; 1; 0; 0; 0]) trio 0 0 6
    = Some <$> [SINGLE; SINGLE; SINGLE; OUT; OUT; OUT]
  ∧ simulate_inning (script [1; 1; 1; 0; 0; 0]) 6 trio 0 0 = Done ((0, 0), 6)
  ∧ ∀ fuel cursor pos,
      simulate_inning (script [1; 1; 1; 0; 0; 0]) fuel trio 0 0 ≠ Done ((1, cursor), pos).
Proof.
  split; [reflexivity|]. split; [reflexivity|]. intros fuel cursor pos.
  destruct (decide (6 ≤ fuel)) as [Hfuel|Hfuel].
  - assert (Hrun : simulate_inning (script [1; 1; 1; 0; 0; 0]) fuel trio 0 0
                   = Done ((0, 0), 6)).
    { apply (simulate_inning_Done _ _ trio 0 0 _ _
               (singles_then_outs (script [1; 1; 1; 0; 0; 0]) fuel
                  (even_hitter "Ada") (even_hitter "Bo") (even_hitter "Cy") 0
                  eq_refl Hfuel)). }
    rewrite Hrun. discriminate.
  - do 6 (destruct fuel as [|fuel]; [discriminate|]). lia.
Qed.

(** ** The game aggregator *)

Lemma game_loop_played rng fuel lineup k : ∀ total scores b pos t s pos',
  game_loop rng fuel k lineup total scores b pos = Done ((t, s), pos')
  ↔ ∃ new b',
      innings_played rng fuel lineup b pos new b' pos'
      ∧ length new = k ∧ s = scores ++ new ∧ t = total + sum_list new.
Proof.
  induction k as [|k IH]; intros total scores b pos t s pos'; simpl.
  - rewrite ret_Done. split.
    + intros [= <- <- <-]. exists [], b.
      rewrite app_nil_r. simpl. split_and!; [constructor|done|done|lia].
    + intros (new & b' & Hplayed & Hlen & -> & ->).
      destruct new; [|done]. inversion Hplayed; subst.
      rewrite app_nil_r. simpl. do 3 f_equal. lia.
  - split.
    + intros ([r b1] & pos1 & Hinning & Hrest)%bind_Done_inv.
      apply IH in Hrest as (new & b' & Hplayed & Hlen & -> & ->).
      exists (r :: new), b'. rewrite <- app_assoc. simpl.
      split_and!; [by econstructor|by rewrite Hlen|done|lia].
    + intros (new & b' & Hplayed & Hlen & -> & ->).
      destruct new as [|r new]; [done|].
      inversion Hplayed as [|? ? ? b1 pos1 ? ? ? Hinning Hrest]; subst.
      rewrite (bind_Done _ _ _ _ _ Hinning). simpl.
      apply IH. exists new, b'. rewrite <- app_assoc. simpl in *.
      split_and!; [done|lia|done|lia].
Qed.

(** C9, amended. [simulate_game] returns exactly when the innings can be
    played one after the other, the first one with the cursor at 0 and each
    next one from the cursor and the stream position the one before
    returned; the scores it returns are those of these innings, one per
    inning, and the total is their sum. When an inning does not come back,
    neither does the game. *)
Theorem simulate_game_aggregates rng fuel (lineup : list Player) (innings : Z)
    (pos : nat) (game : GameResult) (pos' : nat) :
  simulate_game rng fuel lineup innings pos = Done (game, pos')
  ↔ (∃ cursor, innings_played rng fuel lineup 0 pos (inning_scores game) cursor pos')
    ∧ length (inning_scores game) = Z.to_nat innings
    ∧ total_runs game = sum_list (inning_scores game)
    ∧ lineup_names game = name <$> lineup.
Proof.
  unfold simulate_game. split.
  - intros ([t s] & pos1 & Hloop & Hret)%bind_Done_inv.
    rewrite ret_Done in Hret. injection Hret as <- <-.
    apply game_loop_played in Hloop as (new & b' & Hplayed & Hlen & -> & ->).
    simpl. eauto.
  - intros ([cursor Hplayed] & Hlen & Htotal & Hnames).
    assert (Hloop : game_loop rng fuel (Z.to_nat innings) lineup 0 [] 0 pos
                    = Done ((total_runs game, inning_scores game), pos')).
    { apply game_loop_played. exists (inning_scores game), cursor. by split_and!. }
    rewrite (bind_Done _ _ _ _ _ Hloop). simpl. rewrite ret_Done.
    destruct game. simpl in *. by subst.
Qed.

Lemma slugger_valid : Forall valid_player [slugger].
Proof. repeat constructor; unfold valid_counts, outs, hits; simpl; lia. Qed.

Lemma slugger_inning_out_of_fuel fuel pos :
  simulate_inning zeros fuel [slugger] 0 pos = OutOfFuel.
Proof.
  apply simulate_inning_out_of_fuel, inning_loop_out_of_fuel;
    [apply slugger_valid|simpl; lia|].
  assert (Hnone : ∀ n pos0, outs_drawn zeros [slugger] 0 pos0 n = 0).
  { induction n as [|n IH]; intros pos0; [done|].
    rewrite outs_drawn_S. change ((0 + 1) mod length [slugger]) with 0.
    by rewrite IH. }
  simpl. rewrite Hnone. lia.
Qed.

(** C9 as stated fails: not every lineup and inning count gives a score
    sequence. A game of one inning played by a valid lineup that never makes
    an out does not come back, whatever the budget, and a game of six
    innings played by the empty lineup raises [IndexError] at its first
    at-bat. *)
Lemma simulate_game_no_result :
  Forall valid_player [slugger]
  ∧ (∀ fuel, simulate_game zeros fuel [slugger] 1 0 = OutOfFuel)
  ∧ (∀ fuel, simulate_game zeros (S fuel) [] 6 0 = Raise IndexError).
Proof.
  split_and!.
  - apply slugger_valid.
  - intros fuel. unfold simulate_game. change (Z.to_nat 1) with 1. simpl.
    unfold mbind, rand_bind. by rewrite slugger_inning_out_of_fuel.
  - intros fuel. reflexivity.
Qed.

(** ** Sampling without replacement *)

Lemma sample_step_perm {A} (pool : list A) j x y :
  pool !! j = Some x →
  pool !! (length pool - 1) = Some y →
  x :: take (length pool - 1) (<[j := y]> pool) ≡ₚ pool.
Proof.
  destruct pool as [|z pool _] using rev_ind.
  { intros Hj. destruct j; discriminate Hj. }
  rewrite length_app. simpl. rewrite Nat.add_sub.
  rewrite (list_lookup_middle pool [] z (length pool)) by done. intros Hj [= ->].
  assert (Hlt : j < length (pool ++ [y])) by (by eapply lookup_lt_Some).
  rewrite length_app in Hlt. simpl in Hlt.
  destruct (decide (j = length pool)) as [->|Hne].
  - rewrite list_lookup_middle in Hj by done. injection Hj as <-.
    rewrite list_insert_id by (by apply list_lookup_middle).
    rewrite take_app_length. apply Permutation_cons_append.
  - rewrite lookup_app_l in Hj by lia.
    rewrite insert_app_l by lia.
    rewrite take_app_length' by (by rewrite length_insert).
    rewrite insert_take_drop by lia.
    rewrite <- (take_drop_middle pool j x Hj) at 3.
    rewrite <- app_assoc. simpl.
    rewrite <- !Permutation_middle. by rewrite app_nil_r.
Qed.

Lemma sample_loop_Done {A} rng (k : nat) : ∀ (pool : list A) pos,
  k ≤ length pool →
  ∃ res rest,
    sample_loop rng k pool pos = Done (res, pos + k)
    ∧ length res = k ∧ res ++ rest ≡ₚ pool.
Proof.
  induction k as [|k IH]; intros pool pos Hk.
  - exists [], pool. simpl. rewrite ret_Done, Nat.add_0_r. done.
  - simpl. unfold mbind at 1, rand_bind, randbelow.
    assert (Hj : rng pos mod length pool < length pool)
      by (apply Nat.mod_upper_bound; lia).
    destruct (lookup_lt_is_Some_2 pool _ Hj) as [x Hx].
    destruct (lookup_lt_is_Some_2 pool (length pool - 1)) as [y Hy]; [lia|].
    rewrite Hx, Hy.
    pose proof (sample_step_perm pool _ x y Hx Hy) as Hperm.
    destruct (IH (take (length pool - 1) (<[rng pos mod length pool := y]> pool)) (S pos))
      as (res & rest & Hres & Hlen & Hrest).
    { rewrite length_take, length_insert. lia. }
    exists (x :: res), rest.
    rewrite (bind_Done _ _ _ _ _ Hres), ret_Done.
    split_and!.
    + do 2 f_equal. lia.
    + simpl. by rewrite Hlen.
    + simpl. by rewrite Hrest.
Qed.

Lemma sample_Done {A} rng (population : list A) (k : Z) pos :
  (0 ≤ k ≤ Z.of_nat (length population))%Z →
  ∃ res rest,
    sample rng population k pos = Done (res, pos + Z.to_nat k)
    ∧ Z.of_nat (length res) = k ∧ res ++ rest ≡ₚ population.
Proof.
  intros Hk. unfold sample. rewrite decide_True by lia.
  destruct (sample_loop_Done rng (Z.to_nat k) population pos) as (res & rest & ? & ? & ?);
    [lia|].
  exists res, rest. split_and!; [done|lia|done].
Qed.

Lemma sample_Done_inv {A} rng (population : list A) (k : Z) pos res pos' :
  sample rng population k pos = Done (res, pos') →
  (0 ≤ k ≤ Z.of_nat (length population))%Z
  ∧ pos' = pos + Z.to_nat k
  ∧ Z.of_nat (length res) = k
  ∧ ∃ rest, res ++ rest ≡ₚ population.
Proof.
  intros Hs.
  destruct (decide (0 ≤ k ≤ Z.of_nat (length population))%Z) as [Hk|Hk].
  - destruct (sample_Done rng population k pos Hk) as (res' & rest & Hres & ? & ?).
    rewrite Hres in Hs. injection Hs as <- <-. eauto.
  - unfold sample in Hs. by rewrite decide_False in Hs by lia.
Qed.

(** Two positions drawn from [range(n)] are distinct and in range. *)
Lemma sample_two rng n pos res pos' :
  sample rng (seq 0 n) 2 pos = Done (res, pos') →
  ∃ a b, res = [a; b] ∧ a ≠ b ∧ a < n ∧ b < n ∧ pos' = pos + 2.
Proof.
  intros (_ & -> & Hlen & rest & Hperm)%sample_Done_inv.
  destruct res as [|a [|b [|]]]; simpl in Hlen; try lia.
  exists a, b.
  assert (Hnd : NoDup ([a; b] ++ rest)) by (rewrite Hperm; apply NoDup_seq).
  assert (Ha : a ∈ seq 0 n).
  { rewrite <- Hperm. apply elem_of_app. left. by left. }
  assert (Hb : b ∈ seq 0 n).
  { rewrite <- Hperm. apply elem_of_app. left. right. by left. }
  apply elem_of_seq in Ha. apply elem_of_seq in Hb.
  apply NoDup_app in Hnd as (Hnd & _ & _).
  apply NoDup_cons in Hnd as (Hnotin & _).
  split_and!; [done| |lia|lia|done].
  intros ->. apply Hnotin. by left.
Qed.

(** ** Order crossover and swap mutation *)

Section Operators.
Context {Ref : Type} `{EqDecision Ref}.

Lemma order_crossover_at_perm start end_ (parent1 parent2 : list Ref) :
  NoDup parent1 →
  parent1 ≡ₚ parent2 →
  start ≤ end_ ≤ length parent1 →
  ∃ child,
    order_crossover_at start end_ parent1 parent2 = Done child ∧ child ≡ₚ parent1.
Proof.
  intros Hnd Hperm Hcut. unfold order_crossover_at.
  set (segment := take (end_ - start) (drop start parent1)).
  set (filtered := filter (λ p, p ∉ segment) parent2).
  assert (Hseg_sub : ∀ x, x ∈ segment → x ∈ parent1).
  { intros x Hx. by apply (subseteq_drop start), (subseteq_take (end_ - start)). }
  assert (Hseg_nd : NoDup segment).
  { apply (sublist_NoDup segment parent1); [done|].
    etrans; [apply sublist_take|apply sublist_drop]. }
  assert (Hseg_len : length segment = end_ - start).
  { unfold segment. rewrite length_take, length_drop. lia. }
  assert (Hall : filtered ++ segment ≡ₚ parent2).
  { unfold filtered. apply NoDup_Permutation.
    - apply NoDup_app. split_and!; [|intros x [? _]%list_elem_of_filter; done|done].
      apply NoDup_filter. by rewrite <- Hperm.
    - by rewrite <- Hperm.
    - intros x. rewrite elem_of_app, list_elem_of_filter. split.
      + intros [[_ ?]|Hx]; [done|]. rewrite <- Hperm. by apply Hseg_sub.
      + intros Hx. destruct (decide (x ∈ segment)); [by right|by left]. }
  assert (Hlen : length filtered = start + (length parent1 - end_)).
  { apply Permutation_length in Hall. apply Permutation_length in Hperm.
    rewrite length_app in Hall. lia. }
  rewrite decide_True by lia. eexists. split; [done|].
  etrans; [|symmetry; exact Hperm]. etrans; [|exact Hall].
  rewrite (take_ge (drop start filtered)) by (rewrite length_drop; lia).
  rewrite (Permutation_app_comm segment), app_assoc.
  by rewrite take_drop.
Qed.

Lemma order_crossover_perm rng (parent1 parent2 : list Ref) pos :
  NoDup parent1 →
  parent1 ≡ₚ parent2 →
  (2 ≤ length parent1 →
   ∃ child, order_crossover rng parent1 parent2 pos = Done (child, pos + 2))
  ∧ ∀ child pos',
      order_crossover rng parent1 parent2 pos = Done (child, pos') →
      child ≡ₚ parent1.
Proof.
  intros Hnd Hperm.
  assert (Hinv : ∀ child pos',
            order_crossover rng parent1 parent2 pos = Done (child, pos') →
            child ≡ₚ parent1 ∧ pos' = pos + 2).
  { intros child pos' (cuts & pos1 & Hcuts & Hrest)%bind_Done_inv.
    apply sample_two in Hcuts as (a & b & -> & Hab & Ha & Hb & ->).
    apply lift_Done_inv in Hrest as [Hcross ->].
    destruct (order_crossover_at_perm (a `min` b) (a `max` b) parent1 parent2)
      as (child' & Hchild & Hp); [done|done|lia|].
    rewrite Hchild in Hcross. by injection Hcross as <-. }
  split; [|intros child pos' Hc; by destruct (Hinv child pos' Hc)].
  intros Hlen.
  destruct (sample_Done rng (seq 0 (length parent1)) 2 pos) as (cuts & rest & Hcuts & _).
  { rewrite length_seq. lia. }
  pose proof Hcuts as (a & b & -> & Hab & Ha & Hb & _)%sample_two.
  destruct (order_crossover_at_perm (a `min` b) (a `max` b) parent1 parent2)
    as (child & Hchild & Hp); [done|done|lia|].
  exists child. unfold order_crossover.
  rewrite (bind_Done _ _ _ _ _ Hcuts). by rewrite Hchild.
Qed.

Lemma swap_perm i j (lineup child : list Ref) :
  swap i j lineup = Done child → child ≡ₚ lineup.
Proof.
  unfold swap. destruct (lineup !! j) as [y|] eqn:Hj; [|done].
  destruct (lineup !! i) as [x|] eqn:Hi; [|done].
  intros [= <-]. by apply Permutation_insert_swap.
Qed.

Lemma swap_mutation_perm rng (self : GeneticLineupOptimizer Ref) (lineup : list Ref) pos :
  (2 ≤ length lineup →
   ∃ child pos', swap_mutation rng self lineup pos = Done (child, pos'))
  ∧ ∀ child pos',
      swap_mutation rng self lineup pos = Done (child, pos') → child ≡ₚ lineup.
Proof.
  unfold swap_mutation, mbind at 1 3, rand_bind, random.
  case_decide as Hmut; [|split; [eauto|by intros ?? [= <- <-]]].
  split.
  - intros Hlen.
    destruct (sample_Done rng (seq 0 (length lineup)) 2 (S pos)) as (ij & rest & Hij & _).
    { rewrite length_seq. lia. }
    pose proof Hij as (i & j & -> & _ & Hi & Hj & _)%sample_two.
    rewrite (bind_Done _ _ _ _ _ Hij). unfold swap.
    destruct (lookup_lt_is_Some_2 lineup i Hi) as [x ->].
    destruct (lookup_lt_is_Some_2 lineup j Hj) as [y ->]. simpl. eauto.
  - intros child pos' (ij & pos1 & Hij & Hrest)%bind_Done_inv.
    apply sample_two in Hij as (i & j & -> & _).
    apply lift_Done_inv in Hrest as [Hswap _]. by eapply swap_perm.
Qed.

(** C5. For parents that are permutations of one duplicate-free set of
    players, order crossover returns, for every pair of cut points, a child
    that is a permutation of that set, of the same length and without
    repeats; swap mutation returns a permutation of the lineup it is given,
    of the same length and without repeats if the lineup has none. With at
    least two players both operations do return. *)
Theorem crossover_and_mutation_keep_lineup rng (self : GeneticLineupOptimizer Ref)
    (parent1 parent2 : list Ref) :
  NoDup parent1 →
  parent1 ≡ₚ parent2 →
  (∀ start end_, start ≤ end_ ≤ length parent1 →
     ∃ child,
       order_crossover_at start end_ parent1 parent2 = Done child
       ∧ child ≡ₚ parent1 ∧ length child = length parent1 ∧ NoDup child)
  ∧ (∀ pos child pos',
       order_crossover rng parent1 parent2 pos = Done (child, pos') →
       child ≡ₚ parent1 ∧ length child = length parent1 ∧ NoDup child)
  ∧ (∀ (lineup : list Ref) pos child pos',
       swap_mutation rng self lineup pos = Done (child, pos') →
       child ≡ₚ lineup ∧ length child = length lineup
       ∧ (NoDup lineup → NoDup child))
  ∧ (2 ≤ length parent1 →
     ∀ pos,
       (∃ child pos', order_crossover rng parent1 parent2 pos = Done (child, pos'))
       ∧ (∃ child pos', swap_mutation rng self parent1 pos = Done (child, pos'))).
Proof.
  intros Hnd Hperm.
  assert (Hkeep : ∀ child, child ≡ₚ parent1 →
            child ≡ₚ parent1 ∧ length child = length parent1 ∧ NoDup child).
  { intros child Hc. split_and!; [done|by apply Permutation_length|by rewrite Hc]. }
  split_and!.
  - intros start end_ Hcut.
    destruct (order_crossover_at_perm start end_ parent1 parent2) as (child & ? & ?);
      [done..|]. exists child. split; [done|]. by apply Hkeep.
  - intros pos child pos' Hc. apply Hkeep.
    by eapply (proj2 (order_crossover_perm rng parent1 parent2 pos Hnd Hperm)).
  - intros lineup pos child pos' Hc.
    assert (Hp : child ≡ₚ lineup)
      by (by eapply (proj2 (swap_mutation_perm rng self lineup pos))).
    split_and!; [done|by apply Permutation_length|by rewrite Hp].
  - intros Hlen pos. split.
    + destruct (proj1 (order_crossover_perm rng parent1 parent2 pos Hnd Hperm) Hlen)
        as [child ?]. eauto.
    + by apply (proj1 (swap_mutation_perm rng self parent1 pos)).
Qed.
End Operators.

(** ** The fitness cache *)

Section Engine.
Context {Ref : Type} `{EqDecision Ref}.
Variable deref : Ref → Player.
Variable rng : nat → nat.
Variable fuel : nat.

Local Abbreviation Optimizer := (GeneticLineupOptimizer Ref).

Lemma set_fitness_cache_id (self : Optimizer) :
  set_fitness_cache self (fitness_cache self) = self.
Proof. by destruct self. Qed.

Lemma evaluate_fitness_hit (self : Optimizer) (lineup : list Ref) num_games innings pos v :
  fitness_cache self !! lineup_key deref lineup = Some v →
  evaluate_fitness deref rng fuel self lineup num_games innings pos
  = Done ((v, self), pos).
Proof.
  intros Hhit. unfold evaluate_fitness. rewrite Hhit.
  unfold mbind, rand_bind. rewrite ret_Done. by rewrite Hhit.
Qed.

Lemma evaluate_fitness_miss (self : Optimizer) (lineup : list Ref) num_games innings pos :
  fitness_cache self !! lineup_key deref lineup = None →
  evaluate_fitness deref rng fuel self lineup num_games innings pos
  = match evaluate_lineup deref rng fuel lineup num_games innings pos with
    | Done (result, pos') =>
        Done ((mean_runs result,
               set_fitness_cache self
                 (<[lineup_key deref lineup := mean_runs result]> (fitness_cache self))),
              pos')
    | Raise e => Raise e
    | OutOfFuel => OutOfFuel
    end.
Proof.
  intros Hmiss. unfold evaluate_fitness. rewrite Hmiss.
  unfold mbind, rand_bind.
  destruct (evaluate_lineup deref rng fuel lineup num_games innings pos)
    as [[result pos']| |]; [|done..].
  rewrite ret_Done. simpl. by rewrite lookup_insert_eq.
Qed.

(** A call changes nothing but the cache, and the cache only by adding the
    entry of a lineup that had none. *)
Lemma evaluate_fitness_Done (self : Optimizer) (lineup : list Ref) num_games innings
    pos v self' pos' :
  evaluate_fitness deref rng fuel self lineup num_games innings pos
  = Done ((v, self'), pos') →
  fitness_cache self' !! lineup_key deref lineup = Some v
  ∧ fitness_cache self ⊆ fitness_cache self'
  ∧ self' = set_fitness_cache self (fitness_cache self').
Proof.
  destruct (fitness_cache self !! lineup_key deref lineup) as [w|] eqn:Hc.
  - rewrite (evaluate_fitness_hit _ _ _ _ _ w Hc). intros [= <- <- <-].
    by rewrite set_fitness_cache_id.
  - rewrite (evaluate_fitness_miss _ _ _ _ _ Hc).
    destruct (evaluate_lineup deref rng fuel lineup num_games innings pos)
      as [[result pos1]| |]; [|done..].
    intros [= <- <- <-]. simpl. split_and!.
    + apply lookup_insert_eq.
    + by apply insert_subseteq.
    + done.
Qed.

Lemma fitness_loop_Done (lineups : list (list Ref)) num_games innings :
  ∀ (self : Optimizer) acc pos fitness_scores self' pos',
  fitness_loop deref rng fuel lineups self num_games innings acc pos
  = Done ((fitness_scores, self'), pos') →
  self' = set_fitness_cache self (fitness_cache self')
  ∧ fitness_cache self ⊆ fitness_cache self'
  ∧ ∃ new,
      fitness_scores = acc ++ new
      ∧ length new = length lineups
      ∧ ∀ i lineup, lineups !! i = Some lineup →
          ∃ f, new !! i = Some f
               ∧ fitness_cache self' !! lineup_key deref lineup = Some f.
Proof.
  induction lineups as [|lineup rest IH]; intros self acc pos scores self' pos'; simpl.
  - rewrite ret_Done. intros [= <- <- <-].
    rewrite set_fitness_cache_id. split_and!; [done..|].
    exists []. rewrite app_nil_r. split_and!; [done..|]. by intros [|].
  - intros ([v self1] & pos1 & Heval & Hrest)%bind_Done_inv.
    apply evaluate_fitness_Done in Heval as (Hv & Hsub1 & Hself1).
    apply IH in Hrest as (Hself' & Hsub & new & -> & Hlen & Hnew).
    split_and!.
    + rewrite Hself', Hself1. done.
    + by etrans.
    + exists (v :: new). rewrite <- app_assoc. split_and!; [done|simpl; lia|].
      intros [|i] l Hl; simpl in *.
      * injection Hl as <-. exists v. split; [done|].
        by eapply lookup_weaken.
      * by apply Hnew.
Qed.

(** ** Selection of the elite *)

Lemma max_by_spec {A} (key : A → Qc) (l : list A) (x : A) :
  max_by key l = Some x → x ∈ l ∧ ∀ y, y ∈ l → (key y ≤ key x)%Qc.
Proof.
  destruct l as [|a l]; [done|]. simpl. intros [= <-].
  set (step := λ best y, if decide (key best < key y)%Qc then y else best).
  assert (Hfold : ∀ l best,
            (foldl step best l = best ∨ foldl step best l ∈ l)
            ∧ (key best ≤ key (foldl step best l))%Qc
            ∧ ∀ y, y ∈ l → (key y ≤ key (foldl step best l))%Qc).
  { clear. induction l as [|z l IH]; intros best; simpl.
    - split_and!; [by left|apply Qcle_refl|]. by intros y ?%elem_of_nil.
    - destruct (IH (step best z)) as (Hin & Hle & Hall).
      assert (Hstep : (key best ≤ key (step best z))%Qc
                      ∧ (key z ≤ key (step best z))%Qc
                      ∧ (step best z = best ∨ step best z = z)).
      { unfold step. case_decide as Hlt.
        - split_and!; [by apply Qclt_le_weak|apply Qcle_refl|by right].
        - split_and!; [apply Qcle_refl|by apply Qcnot_lt_le|by left]. }
      destruct Hstep as (Hb & Hz & Hcase).
      split_and!.
      + destruct Hin as [->|Hin]; [|right; by right].
        destruct Hcase as [->| ->]; [by left|right; by left].
      + by etrans.
      + intros y [->|Hy]%elem_of_cons; [by etrans|by apply Hall]. }
  destruct (Hfold l a) as (Hin & Hle & Hall). split.
  - destruct Hin as [->|Hin]; [by left|by right].
  - intros y [->|Hy]%elem_of_cons; [done|by apply Hall].
Qed.

Lemma index_spec (x : Qc) (l : list Qc) (i : nat) :
  index x l = Some i → l !! i = Some x ∧ ∀ j, j < i → l !! j ≠ Some x.
Proof.
  unfold index. intros ([i' y] & Hfind & Heq)%fmap_Some.
  simpl in Heq. subst i'.
  apply list_find_Some in Hfind as (Hy & -> & Hfirst). split; [done|].
  intros j Hj Hl. by eapply Hfirst.
Qed.

Lemma offspring_loop_Done (self : Optimizer) fitness_scores (k : nat) :
  ∀ new_population pos result pos',
  offspring_loop rng k self fitness_scores new_population pos = Done (result, pos') →
  ∃ children, result = new_population ++ children ∧ length children = k.
Proof.
  induction k as [|k IH]; intros new_population pos result pos'; simpl.
  - rewrite ret_Done. intros [= <- <-]. exists []. by rewrite app_nil_r.
  - intros (parent1 & pos1 & _ & Hrest)%bind_Done_inv.
    apply bind_Done_inv in Hrest as (parent2 & pos2 & _ & Hrest).
    apply bind_Done_inv in Hrest as (child0 & pos3 & _ & Hrest).
    apply bind_Done_inv in Hrest as (child & pos4 & _ & Hrest).
    apply IH in Hrest as (children & -> & Hlen).
    exists (child :: children). rewrite <- app_assoc. simpl. by rewrite Hlen.
Qed.

(** What a generation step that comes back has done. *)
Lemma evolve_generation_Done (self : Optimizer) num_games innings pos
    fitness_scores best self' pos' :
  evolve_generation deref rng fuel self num_games innings pos
  = Done (((fitness_scores, best), self'), pos') →
  ∃ best_idx elite children,
    fitness_cache self ⊆ fitness_cache self'
    ∧ length fitness_scores = length (population self)
    ∧ (∀ i lineup, population self !! i = Some lineup →
         ∃ f, fitness_scores !! i = Some f
              ∧ fitness_cache self' !! lineup_key deref lineup = Some f)
    ∧ fitness_scores !! best_idx = Some best
    ∧ (∀ f, f ∈ fitness_scores → (f ≤ best)%Qc)
    ∧ (∀ j, j < best_idx → fitness_scores !! j ≠ Some best)
    ∧ population self !! best_idx = Some elite
    ∧ population self' = elite :: children
    ∧ length children = Z.to_nat (population_size self - 1).
Proof.
  unfold evolve_generation.
  intros ([scores self1] & pos1 & Hfit & Hrest)%bind_Done_inv.
  apply fitness_loop_Done in Hfit as (Hself1 & Hsub & new & Hscores & Hlen & Hnew).
  simpl in Hscores. subst scores.
  destruct (max_by id new) as [best'|] eqn:Hmax; [|done].
  destruct (index best' new) as [best_idx|] eqn:Hidx; [|done].
  assert (Hpop : population self1 = population self) by (by rewrite Hself1).
  assert (Hsize : population_size self1 = population_size self) by (by rewrite Hself1).
  rewrite Hpop in Hrest.
  destruct (population self !! best_idx) as [elite|] eqn:Helite; [|done].
  apply bind_Done_inv in Hrest as (new_population & pos2 & Hoff & Hret).
  rewrite ret_Done in Hret. injection Hret as <- <- <- <-.
  apply offspring_loop_Done in Hoff as (children & -> & Hchildren).
  apply max_by_spec in Hmax as [_ Hmax].
  apply index_spec in Hidx as [Hbest Hfirst].
  exists best_idx, elite, children. simpl in *.
  split_and!; try done. by rewrite Hchildren, Hsize.
Qed.

(** C6. In every generation step that completes, the lineup at the first
    position of the greatest fitness score of the current population is the
    first lineup of the next population, unchanged, and the offspring come
    after it. *)
Theorem elitism (self : Optimizer) (num_games innings : Z) (pos : nat)
    (fitness_scores : list Qc) (best : Qc) (self' : Optimizer) (pos' : nat) :
  evolve_generation deref rng fuel self num_games innings pos
  = Done (((fitness_scores, best), self'), pos') →
  ∃ best_idx elite children,
    length fitness_scores = length (population self)
    ∧ (∀ i lineup, population self !! i = Some lineup →
         ∃ f, fitness_scores !! i = Some f
              ∧ fitness_cache self' !! lineup_key deref lineup = Some f)
    ∧ fitness_scores !! best_idx = Some best
    ∧ (∀ f, f ∈ fitness_scores → (f ≤ best)%Qc)
    ∧ (∀ j, j < best_idx → fitness_scores !! j ≠ Some best)
    ∧ population self !! best_idx = Some elite
    ∧ population self' = elite :: children
    ∧ elite ∈ population self'
    ∧ length children = Z.to_nat (population_size self - 1).
Proof.
  intros (best_idx & elite & children & _ & ? & ? & ? & ? & ? & ? & Hpop & ?)
    %evolve_generation_Done.
  exists best_idx, elite, children. split_and!; try done.
  rewrite Hpop. by left.
Qed.



(** ** Clamping of the lineup size *)

(** C10. An optimizer built with a lineup size above the roster size holds
    the roster size instead, the random search clamps in the same way, and
    both draw their lineups without failing: a lineup has
    [min(lineup_size, len(players))] players, all from the roster. *)
Theorem lineup_size_clamped (players : list Ref) (lineup_size' population_size' : Z)
    (mutation_rate' : Qc) (tournament_size' : Z) (pos : nat) :
  (0 ≤ lineup_size')%Z →
  let self := new_optimizer players lineup_size' population_size'
                mutation_rate' tournament_size' in
  let size := Z.min lineup_size' (Z.of_nat (length players)) in
  lineup_size self = size
  ∧ (∃ lineup rest,
       create_random_lineup rng self pos = Done (lineup, pos + Z.to_nat size)
       ∧ Z.of_nat (length lineup) = size ∧ lineup ++ rest ≡ₚ players)
  ∧ (∃ lineup rest,
       generate_random_lineup rng players lineup_size' pos
       = Done (lineup, pos + Z.to_nat size)
       ∧ Z.of_nat (length lineup) = size ∧ lineup ++ rest ≡ₚ players).
Proof.
  intros Hsize self size. split_and!.
  - done.
  - unfold create_random_lineup. simpl. fold size.
    destruct (sample_Done rng players size pos) as (lineup & rest & ? & ? & ?);
      [lia|]. by exists lineup, rest.
  - unfold generate_random_lineup.
    replace (if decide (Z.of_nat (length players) < lineup_size')%Z
             then Z.of_nat (length players) else lineup_size') with size
      by (case_decide; lia).
    destruct (sample_Done rng players size pos) as (lineup & rest & ? & ? & ?);
      [lia|]. by exists lineup, rest.
Qed.
End Engine.

Section Seeding.
Context {Ref : Type} `{EqDecision Ref}.
Variable deref : Ref → Player.
Variable rng : nat → nat.
Variable fuel : nat.

Local Abbreviation Optimizer := (GeneticLineupOptimizer Ref).

Lemma populate_ignores_population (k : nat) (self : Optimizer) pop0 : ∀ pop pos,
  populate rng k (set_population self pop0) pop pos = populate rng k self pop pos.
Proof.
  induction k as [|k IH]; intros pop pos; [done|]. simpl.
  unfold mbind, rand_bind.
  change (create_random_lineup rng (set_population self pop0))
    with (create_random_lineup rng self).
  destruct (create_random_lineup rng self pos) as [[lineup pos1]| |]; [|done..].
  apply IH.
Qed.

(** [initialize_population] starts from the empty list whatever the
    population was. *)
Lemma initialize_population_fresh (self : Optimizer) pop0 pos :
  initialize_population rng (set_population self pop0) pos
  = initialize_population rng self pos.
Proof.
  unfold initialize_population, mbind, rand_bind. simpl.
  rewrite populate_ignores_population.
  by destruct (populate rng _ self [] pos) as [[pop pos1]| |].
Qed.

Lemma optimize_ignores_population (self : Optimizer) pop0
    generations num_games innings verbose pos :
  optimize deref rng fuel (set_population self pop0) generations num_games innings
    verbose pos
  = optimize deref rng fuel self generations num_games innings verbose pos.
Proof.
  unfold optimize, mbind at 1 4, rand_bind.
  by rewrite initialize_population_fresh.
Qed.

Lemma pad_population_Done (k : nat) : ∀ (self self' : Optimizer) pos pos',
  pad_population rng k self pos = Done (self', pos') →
  self' = set_population self (population self').
Proof.
  induction k as [|k IH]; intros self self' pos pos'; simpl.
  - rewrite ret_Done. intros [= <- <-]. by destruct self.
  - intros (lineup & pos1 & _ & Hrest)%bind_Done_inv.
    by apply IH in Hrest.
Qed.
End Seeding.

(** C1, the code against the claim. [optimize] begins with
    [initialize_population], so the population set before the call has no
    effect on what it returns; in [run_genetic_phase] the seed lineups only
    decide how many padding lineups are drawn before [optimize] starts.
    With the roster [ann, bea], the seed [bea, ann] and a population of one,
    the seeded population is [[bea, ann]], but the generation is evaluated
    on the freshly drawn [ann, bea], the only key of the fitness cache. *)
Theorem seed_population_discarded :
  (∀ (Ref : Type) `{EqDecision Ref} (deref : Ref → Player) rng fuel
     (self : GeneticLineupOptimizer Ref) pop generations num_games innings verbose pos,
     optimize deref rng fuel (set_population self pop) generations num_games innings
       verbose pos
     = optimize deref rng fuel self generations num_games innings verbose pos)
  ∧ (∀ (Ref : Type) `{EqDecision Ref} (deref : Ref → Player) rng fuel players
       seed_lineups population_size generations num_games lineup_size innings
       mutation_rate tournament_size verbose pos seeded pos1,
       seed_population rng
         (new_optimizer players lineup_size population_size mutation_rate tournament_size)
         seed_lineups population_size pos = Done (seeded, pos1) →
       run_genetic_phase deref rng fuel players seed_lineups population_size
         generations num_games lineup_size innings mutation_rate tournament_size
         verbose pos
       = ('(ga_results, _) ←
            optimize deref rng fuel
              (new_optimizer players lineup_size population_size mutation_rate
                 tournament_size)
              generations num_games innings verbose;
          mret ga_results) pos1)
  ∧ (∃ seeded,
       seed_population zeros (new_optimizer [ann; bea] 2 1 0%Qc 1) [seed] 1 0
       = Done (seeded, 0)
       ∧ population seeded = [[bea; ann]]
       ∧ ∃ results self' pos',
           optimize id zeros 3 seeded 1 1 1 false 0 = Done ((results, self'), pos')
           ∧ lineup <$> results = [[ann; bea]]
           ∧ population self' = [[ann; bea]]
           ∧ fitness_cache self' !! ["Bea"; "Ann"] = None
           ∧ fitness_cache self' !! ["Ann"; "Bea"] = Some 0%Qc).
Proof.
  split_and!.
  - intros. apply optimize_ignores_population.
  - intros Ref Heq deref rng fuel players seed_lineups population_size generations
      num_games lineup_size innings mutation_rate tournament_size verbose pos seeded
      pos1 Hseed.
    unfold run_genetic_phase. rewrite (bind_Done _ _ _ _ _ Hseed).
    unfold seed_population in Hseed. apply pad_population_Done in Hseed.
    rewrite Hseed. unfold mbind, rand_bind.
    by rewrite !optimize_ignores_population.
  - eexists. split; [vm_compute; reflexivity|]. split; [reflexivity|].
    eexists _, _, _. split; [vm_compute; reflexivity|].
    split_and!; reflexivity.
Qed.

Lemma crossover_and_mutation_keep_lineup_witness :
  NoDup [ann; bea]
  ∧ [ann; bea] ≡ₚ [bea; ann]
  ∧ order_crossover_at 0 1 [ann; bea] [bea; ann] = Done [ann; bea]
  ∧ ∃ child pos', swap_mutation zeros pair_optimizer [ann; bea] 0 = Done (child, pos').
Proof.
  assert (Hnd : NoDup [ann; bea]) by (by apply (bool_decide_unpack _)).
  assert (Hperm : [ann; bea] ≡ₚ [bea; ann]) by (by apply (bool_decide_unpack _)).
  destruct (crossover_and_mutation_keep_lineup zeros pair_optimizer
              [ann; bea] [bea; ann] Hnd Hperm) as (_ & _ & _ & Hreturns).
  split_and!; [exact Hnd | exact Hperm | reflexivity |].
  apply (Hreturns ltac:(simpl; lia) 0).
Defined.

Lemma elitism_witness :
  ∃ fitness_scores best self' pos' elite children,
    evolve_generation id zeros 3 pair_optimizer 1 1 0
    = Done (((fitness_scores, best), self'), pos')
    ∧ population self' = elite :: children
    ∧ elite ∈ population pair_optimizer.
Proof.
  assert (Hstep : ∃ r, evolve_generation id zeros 3 pair_optimizer 1 1 0 = Done r)
    by (eexists; vm_compute; reflexivity).
  destruct Hstep as [[[[fitness_scores best] self'] pos'] Hstep].
  destruct (elitism id zeros 3 pair_optimizer 1 1 0 fitness_scores best self' pos' Hstep)
    as (best_idx & elite & children & _ & _ & _ & _ & _ & Helite & Hpop & _).
  exists fitness_scores, best, self', pos', elite, children.
  split_and!; [exact Hstep | exact Hpop |].
  by eapply list_elem_of_lookup_2.
Defined.


Lemma lineup_size_clamped_witness :
  (0 ≤ 9)%Z
  ∧ lineup_size (new_optimizer [ann; bea] 9 50 0%Qc 3) = 2%Z
  ∧ ∃ lineup rest,
      create_random_lineup zeros (new_optimizer [ann; bea] 9 50 0%Qc 3) 0
      = Done (lineup, 2)
      ∧ Z.of_nat (length lineup) = 2%Z ∧ lineup ++ rest ≡ₚ [ann; bea].
Proof.
  assert (Hsize : (0 ≤ 9)%Z) by lia.
  destruct (lineup_size_clamped zeros [ann; bea] 9 50 0%Qc 3 0 Hsize)
    as (Hclamp & Hcreate & _).
  split_and!; [exact Hsize | exact Hclamp | exact Hcreate].
Defined.

Lemma simulate_game_aggregates_witness :
  ∃ cursor,
    innings_played (script [1; 1; 1; 1; 0; 0; 0; 0; 0; 0]) 10 trio 0 0 [1; 0] cursor 10.
Proof.
  destruct (proj1 (simulate_game_aggregates (script [1; 1; 1; 1; 0; 0; 0; 0; 0; 0]) 10
                     trio 2 0
                     {| total_runs := 1; inning_scores := [1; 0];
                        lineup_names := ["Ada"; "Bo"; "Cy"] |} 10) eq_refl)
    as (Hplayed & _).
  exact Hplayed.
Defined.

(** * Further properties of the code *)

(** ** The simulator: accounting and edge cases *)

Lemma choice_Done_inv {A} rng (seq : list A) pos x pos' :
  choice rng seq pos = Done (x, pos') → pos' = S pos ∧ x ∈ seq.
Proof.
  unfold choice. destruct seq as [|a seq]; [done|].
  unfold mbind, rand_bind, randbelow.
  destruct ((a :: seq) !! (rng pos mod length (a :: seq))) as [y|] eqn:Hy; [|done].
  rewrite ret_Done. intros [= <- <-]. split; [done|].
  by eapply list_elem_of_lookup_2.
Qed.

Lemma at_bat_accounted n player o st :
  accounted (at_bat n player o st) = S (accounted st).
Proof.
  unfold accounted, occupied. destruct o; simpl; unfold occupied; simpl; lia.
Qed.

Lemma inning_loop_Done_inv rng lineup n : ∀ st pos st' pos',
  inning_loop rng n lineup st pos = Done (st', pos') →
  inning_outs st ≤ 3 →
  ∃ m, pos' = pos + m
       ∧ m ≤ n
       ∧ inning_outs st' = 3
       ∧ accounted st' = accounted st + m
       ∧ (m = 0 → st' = st)
       ∧ (0 < m → current_batter st < length lineup
                  ∧ current_batter st' = (current_batter st + m) mod length lineup).
Proof.
  induction n as [|n IH]; intros st pos st' pos' Hrun Hle; simpl in Hrun.
  - case_decide; [done|]. rewrite ret_Done in Hrun. injection Hrun as <- <-.
    exists 0. split_and!; [lia|lia|lia|lia|done|lia].
  - case_decide as Hlt.
    2:{ rewrite ret_Done in Hrun. injection Hrun as <- <-.
        exists 0. split_and!; [lia|lia|lia|lia|done|lia]. }
    destruct (lineup !! current_batter st) as [player|] eqn:Hp; [|done].
    apply bind_Done_inv in Hrun as (o & pos1 & Hhit & Hrest).
    apply choice_Done_inv in Hhit as [-> _].
    apply IH in Hrest as (m & -> & Hm & Hthree & Hacc & Hzero & Hcur).
    2:{ rewrite at_bat_inning_outs. case_decide; lia. }
    rewrite at_bat_accounted in Hacc.
    assert (Hb : current_batter st < length lineup) by (by eapply lookup_lt_Some).
    exists (S m). split_and!; [lia|lia|done|lia|lia|].
    intros _. split; [done|].
    destruct (decide (m = 0)) as [->|Hne].
    + rewrite Hzero by done. by rewrite at_bat_current_batter.
    + destruct Hcur as [_ ->]; [lia|].
      rewrite at_bat_current_batter. apply mod_succ_add.
Qed.

(** X1. An inning that ends has used one draw per batter, and every batter
    is one of the three outs, a run, or one of at most three runners left
    on base; the cursor it returns is the start cursor moved by the number
    of batters, inside the lineup. *)
Theorem simulate_inning_accounting rng fuel (lineup : list Player)
    (batter_index pos runs_scored next_batter pos' : nat) :
  simulate_inning rng fuel lineup batter_index pos
  = Done ((runs_scored, next_batter), pos') →
  ∃ batters left_on_base,
    pos' = pos + batters
    ∧ batters = 3 + runs_scored + left_on_base
    ∧ left_on_base ≤ 3
    ∧ batters ≤ fuel
    ∧ batter_index < length lineup
    ∧ next_batter = (batter_index + batters) mod length lineup
    ∧ next_batter < length lineup.
Proof.
  unfold simulate_inning.
  intros (st & pos1 & Hloop & Hret)%bind_Done_inv.
  rewrite ret_Done in Hret. injection Hret as <- <- <-.
  apply inning_loop_Done_inv in Hloop as (m & -> & Hm & Hthree & Hacc & _ & Hcur);
    [|simpl; lia].
  unfold accounted in Hacc. simpl in Hacc. rewrite Hthree in Hacc.
  assert (Hocc : occupied (bases st) ≤ 3).
  { unfold occupied. destruct (base1 (bases st)), (base2 (bases st)), (base3 (bases st));
      simpl; lia. }
  destruct Hcur as [Hb Hnext]; [lia|]. simpl in Hb, Hnext.
  exists m, (occupied (bases st)). split_and!; [done|lia|done|done|done|done|].
  rewrite Hnext. apply Nat.mod_upper_bound. lia.
Qed.

Lemma simulate_inning_accounting_witness :
  ∃ batters left_on_base,
    10 = 0 + batters ∧ batters = 3 + 4 + left_on_base ∧ left_on_base ≤ 3.
Proof.
  destruct (simulate_inning_accounting (script [1; 1; 1; 1; 1; 1; 1; 0; 0; 0]) 10 trio
              0 0 4 1 10 eq_refl) as (batters & left & H1 & H2 & H3 & _).
  by exists batters, left.
Defined.

Lemma simulate_inning_draws rng fuel lineup b pos r b' pos' :
  simulate_inning rng fuel lineup b pos = Done ((r, b'), pos') →
  pos + 3 + r ≤ pos' ∧ pos' ≤ pos + 6 + r.
Proof.
  unfold simulate_inning.
  intros (st & pos1 & Hloop & Hret)%bind_Done_inv.
  rewrite ret_Done in Hret. injection Hret as <- <- <-.
  apply inning_loop_Done_inv in Hloop as (m & -> & _ & Hthree & Hacc & _);
    [|simpl; lia].
  unfold accounted, occupied in Hacc. simpl in Hacc.
  destruct (base1 (bases st)), (base2 (bases st)), (base3 (bases st));
    simpl in Hacc; lia.
Qed.

Lemma game_loop_Done_inv rng fuel lineup k : ∀ total scores b pos t s pos',
  game_loop rng fuel k lineup total scores b pos = Done ((t, s), pos') →
  pos + 3 * k + (t - total) ≤ pos'
  ∧ pos' ≤ pos + 6 * k + (t - total)
  ∧ total ≤ t
  ∧ length s = length scores + k.
Proof.
  induction k as [|k IH]; intros total scores b pos t s pos'; simpl.
  - rewrite ret_Done. intros [= <- <- <-]. lia.
  - intros ([r b1] & pos1 & Hinning & Hrest)%bind_Done_inv.
    apply simulate_inning_draws in Hinning as [Hlo1 Hhi1].
    apply IH in Hrest as (Hlo & Hhi & Htot & Hlen).
    rewrite length_app in Hlen. simpl in Hlen. lia.
Qed.

Lemma simulate_game_draws rng fuel lineup innings pos game pos' :
  simulate_game rng fuel lineup innings pos = Done (game, pos') → pos ≤ pos'.
Proof.
  unfold simulate_game.
  intros ([t s] & pos1 & Hloop & Hret)%bind_Done_inv.
  rewrite ret_Done in Hret. injection Hret as <- <-.
  apply game_loop_Done_inv in Hloop. lia.
Qed.

(** X2. A game of [n] innings that ends has used at least [3 n] draws plus
    one per run, and at most three more per inning (the runners left on
    base); it reports [n] inning scores and the names of the lineup in
    batting order. *)
Theorem simulate_game_accounting rng fuel (lineup : list Player) (innings : Z)
    (pos : nat) (game : GameResult) (pos' : nat) :
  simulate_game rng fuel lineup innings pos = Done (game, pos') →
  let n := Z.to_nat innings in
  pos + 3 * n + total_runs game ≤ pos'
  ∧ pos' ≤ pos + 6 * n + total_runs game
  ∧ length (inning_scores game) = n
  ∧ lineup_names game = name <$> lineup.
Proof.
  unfold simulate_game.
  intros ([t s] & pos1 & Hloop & Hret)%bind_Done_inv.
  rewrite ret_Done in Hret. injection Hret as <- <-.
  apply game_loop_Done_inv in Hloop. simpl in *. split_and!; [lia|lia|lia|done].
Qed.

Lemma simulate_game_accounting_witness :
  0 + 3 * Z.to_nat 2 + 1 ≤ 10 ∧ 10 ≤ 0 + 6 * Z.to_nat 2 + 1.
Proof.
  destruct (simulate_game_accounting (script [1; 1; 1; 1; 0; 0; 0; 0; 0; 0]) 10 trio 2 0
              {| total_runs := 1; inning_scores := [1; 0];
                 lineup_names := ["Ada"; "Bo"; "Cy"] |} 10 eq_refl)
    as (Hlo & Hhi & _).
  split; [exact Hlo | exact Hhi].
Defined.

(** X3. Edge cases of a game: no inning is played for [innings <= 0], and
    the result is zero runs without a draw, also for an empty lineup; with
    an inning to play, an empty lineup, or a leadoff batter without a
    token (hits and outs summing to nothing), raises [IndexError]. *)
Theorem simulate_game_edge_cases rng fuel (lineup : list Player) (innings : Z) (pos : nat) :
  ((innings ≤ 0)%Z →
     simulate_game rng fuel lineup innings pos
     = Done ({| total_runs := 0; inning_scores := [];
                lineup_names := name <$> lineup |}, pos))
  ∧ ((0 < innings)%Z →
     lineup = [] ∨ (∃ leadoff, lineup !! 0 = Some leadoff ∧ outcomes leadoff = []) →
     simulate_game rng (S fuel) lineup innings pos = Raise IndexError).
Proof.
  split.
  - intros Hle. unfold simulate_game. replace (Z.to_nat innings) with 0 by lia. done.
  - intros Hlt Hbad. unfold simulate_game.
    destruct (Z.to_nat innings) as [|k] eqn:Hk; [lia|].
    assert (Hinning : simulate_inning rng (S fuel) lineup 0 pos = Raise IndexError).
    { unfold simulate_inning, mbind, rand_bind. simpl.
      destruct Hbad as [->|(leadoff & Hl & Hout)]; [done|].
      rewrite Hl. unfold mbind, rand_bind, player_hit. by rewrite Hout. }
    simpl. unfold mbind at 1 2, rand_bind. by rewrite Hinning.
Qed.

Lemma simulate_game_edge_cases_witness :
  simulate_game zeros 0 [] (-1) 7
  = Done ({| total_runs := 0; inning_scores := []; lineup_names := [] |}, 7)
  ∧ simulate_game zeros 1 [] 6 7 = Raise IndexError.
Proof.
  destruct (simulate_game_edge_cases zeros 0 [] (-1) 7) as [Hnone _].
  destruct (simulate_game_edge_cases zeros 0 [] 6 7) as [_ Hraise].
  split; [apply Hnone; lia | apply Hraise; [lia | by left]].
Defined.

(** ** The lineup evaluator *)

Lemma sum_list_bounds (l : list nat) (lo hi : nat) :
  (∀ r, r ∈ l → lo ≤ r ≤ hi) →
  lo * length l ≤ sum_list l ≤ hi * length l.
Proof.
  induction l as [|x l IH]; intros Hall; simpl; [lia|].
  assert (Hx : lo ≤ x ≤ hi) by (apply Hall; by left).
  assert (Hl : lo * length l ≤ sum_list l ≤ hi * length l).
  { apply IH. intros r Hr. apply Hall. by right. }
  lia.
Qed.

Lemma mean_bounds (data : list nat) (m : Qc) (lo hi : nat) :
  mean data = Done m →
  (∀ r, r ∈ data → lo ≤ r ≤ hi) →
  (Qc_of_Z (Z.of_nat lo) ≤ m ≤ Qc_of_Z (Z.of_nat hi))%Qc.
Proof.
  unfold mean. destruct data as [|x data]; [done|].
  intros [= <-] Hall. apply sum_list_bounds in Hall.
  set (total := sum_list (x :: data)) in *.
  set (n := length (x :: data)) in *.
  assert (Hn : 0 < n) by (unfold n; simpl; lia).
  set (b := Qc_of_Z (Z.of_nat n)).
  assert (Hb : (0 < b)%Qc).
  { rewrite <- Z2Qc_inj_0. apply (proj1 (Z2Qc_inj_lt 0 (Z.of_nat n))). lia. }
  assert (Hne : b ≠ 0%Qc).
  { intros Hz. rewrite Hz in Hb. apply Qclt_not_le in Hb. apply Hb, Qcle_refl. }
  assert (Hmul : (Qc_of_Z (Z.of_nat total) / b * b = Qc_of_Z (Z.of_nat total))%Qc).
  { rewrite Qcmult_comm. by apply Qcmult_div_r. }
  split; apply (Qcmult_lt_0_le_reg_r _ _ b Hb);
    change (Qc_of_Z (Z.of_nat (x + sum_list data)) / Qc_of_Z (Z.of_nat (S (length data))))%Qc
      with (Qc_of_Z (Z.of_nat total) / b)%Qc;
    rewrite Hmul; unfold b; rewrite <- Z2Qc_inj_mul;
    apply (proj1 (Z2Qc_inj_le _ _)); lia.
Qed.

Section Evaluator.
Context {Ref : Type} `{EqDecision Ref}.
Variable deref : Ref → Player.
Variable rng : nat → nat.
Variable fuel : nat.

Lemma games_loop_Done_inv (lineup : list Player) (innings : Z) (k : nat) :
  ∀ acc pos runs pos',
  games_loop rng fuel k lineup innings acc pos = Done (runs, pos') →
  pos ≤ pos' ∧ ∃ new, runs = acc ++ new ∧ length new = k.
Proof.
  induction k as [|k IH]; intros acc pos runs pos'; simpl.
  - rewrite ret_Done. intros [= <- <-]. split; [done|]. exists []. by rewrite app_nil_r.
  - intros (game & pos1 & Hgame & Hrest)%bind_Done_inv.
    apply simulate_game_draws in Hgame.
    apply IH in Hrest as (Hle & new & -> & Hlen).
    split; [lia|]. exists (total_runs game :: new).
    rewrite <- app_assoc. simpl. by rewrite Hlen.
Qed.

Lemma evaluate_lineup_fields (batting_order : list Ref) (num_games innings : Z)
    pos result pos' :
  evaluate_lineup deref rng fuel batting_order num_games innings pos
  = Done (result, pos') →
  lineup result = batting_order
  ∧ Z.of_nat (length (runs_per_game result)) = num_games
  ∧ total_games result = length (runs_per_game result).
Proof.
  unfold evaluate_lineup.
  intros (runs & pos1 & Hgames & Hnew)%bind_Done_inv.
  apply games_loop_Done_inv in Hgames as (_ & new & -> & Hlen).
  apply lift_Done_inv in Hnew as [Hnew _]. simpl in Hnew.
  unfold new_LineupResult, mean in Hnew.
  destruct new as [|r new]; [done|]. injection Hnew as <-. simpl in *.
  split_and!; [done|lia|done].
Qed.

(** X4. [evaluate_lineup] needs a game: for [num_games <= 0] it raises
    [StatisticsError] (the mean of no data). When it returns, the result
    holds the lineup it was given and one run total per game, and its mean
    lies between any two bounds of the run totals, so between the smallest
    and the greatest of them. *)
Theorem evaluate_lineup_result (batting_order : list Ref) (num_games innings : Z) (pos : nat) :
  ((num_games ≤ 0)%Z →
     evaluate_lineup deref rng fuel batting_order num_games innings pos = Raise StatisticsError)
  ∧ ∀ result pos',
      evaluate_lineup deref rng fuel batting_order num_games innings pos = Done (result, pos') →
      (0 < num_games)%Z
      ∧ lineup result = batting_order
      ∧ Z.of_nat (length (runs_per_game result)) = num_games
      ∧ total_games result = length (runs_per_game result)
      ∧ (∀ lo hi : nat,
           (∀ r, r ∈ runs_per_game result → lo ≤ r ≤ hi) →
           (Qc_of_Z (Z.of_nat lo) ≤ mean_runs result ≤ Qc_of_Z (Z.of_nat hi))%Qc)
      ∧ pos ≤ pos'.
Proof.
  unfold evaluate_lineup. split.
  - intros Hle. replace (Z.to_nat num_games) with 0 by lia. done.
  - intros result pos' (runs & pos1 & Hgames & Hnew)%bind_Done_inv.
    apply games_loop_Done_inv in Hgames as (Hpos & new & -> & Hlen).
    apply lift_Done_inv in Hnew as [Hnew ->]. simpl in Hnew.
    unfold new_LineupResult in Hnew.
    destruct (mean new) as [m| |] eqn:Hmean; [|done..].
    injection Hnew as <-. simpl.
    assert (Hgame : (0 < num_games)%Z).
    { destruct new; [done|]. change (length (n :: new)) with (S (length new)) in Hlen.
      lia. }
    split_and!; [done|done|lia|done| |done].
    intros lo hi Hall. by apply (mean_bounds new).
Qed.
End Evaluator.

(** ** Tournament selection *)

Section Tournament.
Context {Ref : Type} `{EqDecision Ref}.
Variable rng : nat → nat.

Lemma tournament_entries_Done (fitness_scores : list Qc) (indices : list nat) l :
  tournament_entries fitness_scores indices = Done l →
  l.*1 = indices ∧ ∀ i f, (i, f) ∈ l → fitness_scores !! i = Some f.
Proof.
  revert l. induction indices as [|i indices IH]; intros l; simpl.
  - intros [= <-]. split; [done|]. by intros i f ?%elem_of_nil.
  - destruct (fitness_scores !! i) as [f|] eqn:Hf;
      destruct (tournament_entries fitness_scores indices) as [l'| |]; try done.
    intros [= <-]. destruct (IH l' eq_refl) as [Hfst Hall].
    split; [by rewrite fmap_cons, Hfst|].
    intros j g [[= -> ->]|Hin]%elem_of_cons; [done|by apply Hall].
Qed.

Lemma tournament_entries_total (fitness_scores : list Qc) (indices : list nat) :
  (∀ i, i ∈ indices → i < length fitness_scores) →
  ∃ l, tournament_entries fitness_scores indices = Done l.
Proof.
  induction indices as [|i indices IH]; intros Hin; simpl; [eauto|].
  destruct IH as [l Hl]; [intros j Hj; apply Hin; by right|].
  destruct (lookup_lt_is_Some_2 fitness_scores i) as [f Hf]; [apply Hin; by left|].
  rewrite Hf. fold (tournament_entries fitness_scores indices). rewrite Hl. eauto.
Qed.

Lemma sample_indices n (k : Z) pos res pos' :
  sample rng (seq 0 n) k pos = Done (res, pos') →
  NoDup res ∧ Z.of_nat (length res) = k ∧ (∀ i, i ∈ res → i < n)
  ∧ pos' = pos + Z.to_nat k.
Proof.
  intros (_ & -> & Hlen & rest & Hperm)%sample_Done_inv.
  assert (Hnd : NoDup (res ++ rest)) by (rewrite Hperm; apply NoDup_seq).
  apply NoDup_app in Hnd as (Hnd & _ & _).
  split_and!; [done..| |done].
  intros i Hi. assert (Hin : i ∈ seq 0 n).
  { rewrite <- Hperm. apply elem_of_app. by left. }
  apply elem_of_seq in Hin. lia.
Qed.

Lemma tournament_selection_member (self : GeneticLineupOptimizer Ref)
    (population : list (list Ref)) fitness_scores pos parent pos' :
  tournament_selection rng self population fitness_scores pos = Done (parent, pos') →
  parent ∈ population.
Proof.
  unfold tournament_selection.
  intros (indices & pos1 & _ & Hrest)%bind_Done_inv.
  apply bind_Done_inv in Hrest as (entries & pos2 & _ & Hrest).
  destruct (max_by snd entries) as [[winner best]|]; [|done].
  destruct (population !! winner) as [lineup|] eqn:Hwinner; [|done].
  rewrite ret_Done in Hrest. injection Hrest as <- <-.
  by eapply list_elem_of_lookup_2.
Qed.


Lemma tournament_selection_returns (self : GeneticLineupOptimizer Ref)
    (population : list (list Ref)) (fitness_scores : list Qc) (pos : nat) :
  length fitness_scores = length population →
  (1 ≤ tournament_size self ≤ Z.of_nat (length population))%Z →
  ∃ parent,
    tournament_selection rng self population fitness_scores pos
    = Done (parent, pos + Z.to_nat (tournament_size self))
    ∧ parent ∈ population.
Proof.
  intros Hscores Hsize. unfold tournament_selection.
  destruct (sample_Done rng (seq 0 (length population)) (tournament_size self) pos)
    as (indices & rest & Hsample & Hlen & _); [rewrite length_seq; lia|].
  pose proof Hsample as (_ & _ & Hrange & _)%sample_indices.
  rewrite (bind_Done _ _ _ _ _ Hsample).
  destruct (tournament_entries_total fitness_scores indices) as [entries Hentries].
  { intros i Hi. rewrite Hscores. by apply Hrange. }
  fold (tournament_entries fitness_scores indices). rewrite Hentries.
  unfold mbind, rand_bind. simpl.
  pose proof Hentries as [Hfst _]%tournament_entries_Done.
  destruct (max_by snd entries) as [[winner best]|] eqn:Hmax.
  2:{ destruct entries; [|done]. simpl in Hfst. subst indices. simpl in Hlen. lia. }
  apply max_by_spec in Hmax as [Hin _].
  assert (Hw : winner ∈ indices).
  { rewrite <- Hfst. apply list_elem_of_fmap. by exists (winner, best). }
  destruct (lookup_lt_is_Some_2 population winner (Hrange _ Hw)) as [parent Hparent].
  rewrite Hparent. exists parent. split; [done|].
  by eapply list_elem_of_lookup_2.
Qed.

End Tournament.



(** ** The genetic operators *)

Section Crossover.
Context {Ref : Type} `{EqDecision Ref}.
Variable rng : nat → nat.

Lemma filter_not_in_length (segment l : list Ref) :
  NoDup segment → NoDup l →
  length l ≤ length (filter (λ p, p ∉ segment) l) + length segment.
Proof.
  intros Hseg Hl.
  pose proof (filter_app_complement (λ p, p ∉ segment) l) as Hsplit.
  apply Permutation_length in Hsplit. rewrite length_app in Hsplit.
  assert (Hin : length (filter (λ p : Ref, ¬ (p ∉ segment)) l) ≤ length segment).
  { apply submseteq_length, NoDup_submseteq; [by apply NoDup_filter|].
    intros x [Hx _]%list_elem_of_filter. by apply dec_stable. }
  lia.
Qed.

Lemma order_crossover_at_structure (start end_ : nat) (parent1 parent2 : list Ref) :
  NoDup parent1 → NoDup parent2 →
  length parent2 = length parent1 →
  start ≤ end_ ≤ length parent1 →
  ∃ child,
    order_crossover_at start end_ parent1 parent2 = Done child
    ∧ length child = length parent1
    ∧ NoDup child
    ∧ (∀ i, start ≤ i < end_ → child !! i = parent1 !! i)
    ∧ take start child ++ drop end_ child `sublist_of` parent2
    ∧ (∀ x, x ∈ child → x ∈ parent1 ∨ x ∈ parent2).
Proof.
  intros Hnd1 Hnd2 Hlen Hcut. unfold order_crossover_at.
  set (segment := take (end_ - start) (drop start parent1)).
  set (filtered := filter (λ p, p ∉ segment) parent2).
  assert (Hseg_nd : NoDup segment).
  { apply (sublist_NoDup segment parent1); [done|].
    etrans; [apply sublist_take|apply sublist_drop]. }
  assert (Hseg_len : length segment = end_ - start).
  { unfold segment. rewrite length_take, length_drop. lia. }
  assert (Hseg_sub : ∀ x, x ∈ segment → x ∈ parent1).
  { intros x Hx. by apply (subseteq_drop start), (subseteq_take (end_ - start)). }
  assert (Hfil_len : start + (length parent1 - end_) ≤ length filtered).
  { pose proof (filter_not_in_length segment parent2 Hseg_nd Hnd2). fold filtered in H.
    lia. }
  assert (Hfil_nd : NoDup filtered) by (by apply NoDup_filter).
  assert (Hfil_sub : filtered `sublist_of` parent2) by apply sublist_filter.
  rewrite decide_True by done.
  set (before := take start filtered).
  set (after := take (length parent1 - end_) (drop start filtered)).
  assert (Hbefore : length before = start).
  { unfold before. rewrite length_take. lia. }
  assert (Hafter : length after = length parent1 - end_).
  { unfold after. rewrite length_take, length_drop. lia. }
  assert (Hrest : before ++ after `sublist_of` filtered).
  { unfold before, after. rewrite take_take_drop. apply sublist_take. }
  exists (before ++ segment ++ after). split_and!.
  - done.
  - rewrite !length_app. lia.
  - rewrite (Permutation_app_comm segment), app_assoc, Permutation_app_comm.
    apply NoDup_app. split_and!; [done| |by apply (sublist_NoDup _ filtered)].
    intros x Hx Hin. apply (sublist_subseteq _ _ Hrest) in Hin.
    unfold filtered in Hin. by apply list_elem_of_filter in Hin as [? _].
  - intros i Hi. rewrite lookup_app_r by lia. rewrite Hbefore.
    rewrite lookup_app_l by lia. unfold segment.
    rewrite lookup_take_lt by lia. rewrite lookup_drop. f_equal. lia.
  - rewrite take_app_length' by done.
    rewrite app_assoc, drop_app_length' by (rewrite length_app; lia).
    by etrans.
  - intros x. rewrite !elem_of_app. intros [Hx|[Hx|Hx]].
    + right. apply (sublist_subseteq _ _ Hfil_sub), (sublist_subseteq _ _ Hrest).
      apply elem_of_app. by left.
    + left. by apply Hseg_sub.
    + right. apply (sublist_subseteq _ _ Hfil_sub), (sublist_subseteq _ _ Hrest).
      apply elem_of_app. by right.
Qed.

(** X7. The child of two duplicate-free parents of one length, whatever
    their players: it has that length and no repeats, it holds the players
    of the first parent at the positions between the two cut points, and
    its other players are players of the second parent in the order they
    have there. The cut points are two distinct positions of the parents. *)
Theorem order_crossover_structure (parent1 parent2 : list Ref) (pos : nat)
    (child : list Ref) (pos' : nat) :
  NoDup parent1 → NoDup parent2 →
  length parent2 = length parent1 →
  order_crossover rng parent1 parent2 pos = Done (child, pos') →
  ∃ start end_,
    start < end_ < length parent1
    ∧ length child = length parent1
    ∧ NoDup child
    ∧ (∀ i, start ≤ i < end_ → child !! i = parent1 !! i)
    ∧ take start child ++ drop end_ child `sublist_of` parent2
    ∧ (∀ x, x ∈ child → x ∈ parent1 ∨ x ∈ parent2).
Proof.
  intros Hnd1 Hnd2 Hlen (cuts & pos1 & Hcuts & Hrest)%bind_Done_inv.
  apply sample_two in Hcuts as (a & b & -> & Hab & Ha & Hb & _).
  apply lift_Done_inv in Hrest as [Hcross _].
  destruct (order_crossover_at_structure (a `min` b) (a `max` b) parent1 parent2)
    as (child' & Hchild & Hprops); [done|done|done|lia|].
  rewrite Hchild in Hcross. injection Hcross as <-.
  exists (a `min` b), (a `max` b). split_and!; [lia|lia|apply Hprops..].
Qed.

Lemma order_crossover_returns (parent1 parent2 : list Ref) (pos : nat) :
  2 ≤ length parent1 →
  NoDup parent1 → NoDup parent2 → length parent2 = length parent1 →
  ∃ child, order_crossover rng parent1 parent2 pos = Done (child, pos + 2).
Proof.
  intros Hlen Hnd1 Hnd2 Hlen2.
  destruct (sample_Done rng (seq 0 (length parent1)) 2 pos) as (cuts & rest & Hcuts & _).
  { rewrite length_seq. lia. }
  pose proof Hcuts as (a & b & -> & Hab & Ha & Hb & _)%sample_two.
  destruct (order_crossover_at_structure (a `min` b) (a `max` b) parent1 parent2)
    as (child & Hchild & _); [done|done|done|lia|].
  exists child. unfold order_crossover.
  rewrite (bind_Done _ _ _ _ _ Hcuts). by rewrite Hchild.
Qed.

(** X8. Order crossover needs two positions to cut at: on a first parent
    with fewer than two players it raises [ValueError]; on duplicate-free
    parents of one length with two players or more it returns a child. *)
Theorem order_crossover_domain (parent1 parent2 : list Ref) (pos : nat) :
  (length parent1 < 2 → order_crossover rng parent1 parent2 pos = Raise ValueError)
  ∧ (2 ≤ length parent1 →
     NoDup parent1 → NoDup parent2 → length parent2 = length parent1 →
     ∃ child pos', order_crossover rng parent1 parent2 pos = Done (child, pos')).
Proof.
  split.
  - intros Hlen. unfold order_crossover, mbind, rand_bind, sample.
    rewrite decide_False by (rewrite length_seq; lia). done.
  - intros Hlen Hnd1 Hnd2 Hlen2.
    destruct (order_crossover_returns parent1 parent2 pos Hlen Hnd1 Hnd2 Hlen2)
      as [child Hchild].
    by exists child, (pos + 2).
Qed.

Lemma random_unit_interval pos :
  ∃ r, random rng pos = Done (r, S pos) ∧ (0 ≤ r)%Qc ∧ (r < 1)%Qc.
Proof.
  unfold random. eexists. split; [done|].
  assert (Hm : (0 < 2 ^ 53)%Z) by done.
  generalize dependent (2 ^ 53)%Z. intros m Hm.
  set (a := (Z.of_nat (rng pos) mod m)%Z).
  assert (Ha : (0 ≤ a < m)%Z) by (unfold a; apply Z.mod_pos_bound; exact Hm).
  set (b := Qc_of_Z m).
  assert (Hb : (0 < b)%Qc).
  { rewrite <- Z2Qc_inj_0. by apply (proj1 (Z2Qc_inj_lt 0 m)). }
  assert (Hne : b ≠ 0%Qc).
  { intros Hz. rewrite Hz in Hb. apply Qclt_not_le in Hb. apply Hb, Qcle_refl. }
  assert (Hmul : (Qc_of_Z a / b * b = Qc_of_Z a)%Qc).
  { rewrite Qcmult_comm. by apply Qcmult_div_r. }
  split.
  - apply Qcnot_lt_le. intros Hneg.
    apply (Qcmult_lt_compat_r _ _ b Hb) in Hneg.
    rewrite Hmul, Qcmult_0_l in Hneg.
    rewrite <- Z2Qc_inj_0 in Hneg. apply Z2Qc_inj_lt in Hneg. lia.
  - apply Qcnot_le_lt. intros Hge.
    apply (Qcmult_le_compat_r _ _ b) in Hge; [|by apply Qclt_le_weak].
    rewrite Hmul, Qcmult_1_l in Hge.
    apply Z2Qc_inj_le in Hge. lia.
Qed.

(** X9. Swap mutation draws the decision first. With a mutation rate of 0
    or less the lineup comes back as it is after that one draw; with a
    rate of 1 or more a lineup of two players or more always comes back
    with the players at two distinct positions exchanged, and a shorter
    lineup raises [ValueError]. In any case the result is the lineup itself
    or the lineup with two positions exchanged. *)
Theorem swap_mutation_rate (self : GeneticLineupOptimizer Ref) (lineup : list Ref)
    (pos : nat) :
  ((mutation_rate self ≤ 0)%Qc →
     swap_mutation rng self lineup pos = Done (lineup, S pos))
  ∧ ((1 ≤ mutation_rate self)%Qc → 2 ≤ length lineup →
     ∃ i j x y pos',
       i ≠ j ∧ lineup !! i = Some x ∧ lineup !! j = Some y
       ∧ swap_mutation rng self lineup pos
         = Done (<[j := x]> (<[i := y]> lineup), pos'))
  ∧ ((1 ≤ mutation_rate self)%Qc → length lineup < 2 →
     swap_mutation rng self lineup pos = Raise ValueError)
  ∧ (∀ child pos',
       swap_mutation rng self lineup pos = Done (child, pos') →
       (child = lineup ∧ pos' = S pos)
       ∨ ∃ i j x y,
           i ≠ j ∧ lineup !! i = Some x ∧ lineup !! j = Some y
           ∧ child = <[j := x]> (<[i := y]> lineup)).
Proof.
  destruct (random_unit_interval pos) as (r & Hr & Hr0 & Hr1).
  unfold swap_mutation. rewrite (bind_Done _ _ _ _ _ Hr).
  assert (Hswap : 2 ≤ length lineup →
            ∃ i j x y,
              i ≠ j ∧ lineup !! i = Some x ∧ lineup !! j = Some y
              ∧ (ij ← sample rng (seq 0 (length lineup)) 2;
                 match ij with
                 | [i; j] => lift (swap i j lineup)
                 | _ => raise ValueError
                 end) (S pos)
                = Done (<[j := x]> (<[i := y]> lineup), pos + 3)).
  { intros Hlen.
    destruct (sample_Done rng (seq 0 (length lineup)) 2 (S pos)) as (ij & rest & Hij & _).
    { rewrite length_seq. lia. }
    pose proof Hij as (i & j & -> & Hne & Hi & Hj & _)%sample_two.
    destruct (lookup_lt_is_Some_2 lineup i Hi) as [x Hx].
    destruct (lookup_lt_is_Some_2 lineup j Hj) as [y Hy].
    exists i, j, x, y. split_and!; [done..|].
    rewrite (bind_Done _ _ _ _ _ Hij). unfold swap. rewrite Hx, Hy. simpl.
    do 2 f_equal. lia. }
  assert (Hshort : length lineup < 2 →
            (ij ← sample rng (seq 0 (length lineup)) 2;
             match ij with
             | [i; j] => lift (swap i j lineup)
             | _ => raise ValueError
             end) (S pos) = Raise ValueError).
  { intros Hlen. unfold mbind, rand_bind, sample.
    rewrite decide_False by (rewrite length_seq; lia). done. }
  split_and!.
  - intros Hrate. rewrite decide_False; [done|].
    apply Qcle_not_lt. by etrans.
  - intros Hrate Hlen. rewrite decide_True by (by eapply Qclt_le_trans).
    destruct (Hswap Hlen) as (i & j & x & y & Hne & Hx & Hy & Hdone).
    by exists i, j, x, y, (pos + 3).
  - intros Hrate Hlen. rewrite decide_True by (by eapply Qclt_le_trans). by apply Hshort.
  - intros child pos'. case_decide.
    + destruct (decide (2 ≤ length lineup)) as [Hlen|Hlen].
      * destruct (Hswap Hlen) as (i & j & x & y & ? & ? & ? & ->).
        intros [= <- <-]. right. by exists i, j, x, y.
      * rewrite Hshort by lia. done.
    + rewrite ret_Done. intros [= <- <-]. by left.
Qed.
End Crossover.

Lemma order_crossover_structure_witness :
  ∃ child pos' start end_,
    order_crossover zeros [ann; bea] [bea; ann] 0 = Done (child, pos')
    ∧ start < end_ < 2
    ∧ ∀ i, start ≤ i < end_ → child !! i = [ann; bea] !! i.
Proof.
  assert (Hnd1 : NoDup [ann; bea]) by (by apply (bool_decide_unpack _)).
  assert (Hnd2 : NoDup [bea; ann]) by (by apply (bool_decide_unpack _)).
  assert (Hcall : ∃ r, order_crossover zeros [ann; bea] [bea; ann] 0 = Done r)
    by (eexists; vm_compute; reflexivity).
  destruct Hcall as [[child pos'] Hcall].
  destruct (order_crossover_structure zeros [ann; bea] [bea; ann] 0 child pos'
              Hnd1 Hnd2 eq_refl Hcall)
    as (start & end_ & Hcut & _ & _ & Hseg & _).
  by exists child, pos', start, end_.
Defined.

Lemma order_crossover_domain_witness :
  order_crossover zeros [ann] [ann] 0 = Raise ValueError
  ∧ ∃ child pos', order_crossover zeros [ann; bea] [bea; ann] 0 = Done (child, pos').
Proof.
  assert (Hnd1 : NoDup [ann; bea]) by (by apply (bool_decide_unpack _)).
  assert (Hnd2 : NoDup [bea; ann]) by (by apply (bool_decide_unpack _)).
  destruct (order_crossover_domain zeros [ann] [ann] 0) as [Hshort _].
  destruct (order_crossover_domain zeros [ann; bea] [bea; ann] 0) as [_ Hlong].
  split; [apply Hshort; simpl; lia | apply Hlong; [simpl; lia|done..]].
Defined.

Lemma swap_mutation_rate_witness :
  swap_mutation zeros pair_optimizer [ann; bea] 4 = Done ([ann; bea], 5).
Proof.
  destruct (swap_mutation_rate zeros pair_optimizer [ann; bea] 4) as [Hnever _].
  apply Hnever. by apply (bool_decide_unpack _).
Defined.

(** ** The population *)

Section Population.
Context {Ref : Type} `{EqDecision Ref}.
Variable deref : Ref → Player.
Variable rng : nat → nat.
Variable fuel : nat.

Local Abbreviation Optimizer := (GeneticLineupOptimizer Ref).

Lemma sample_valid_lineup (players : list Ref) (size : Z) pos lineup pos' :
  NoDup players →
  sample rng players size pos = Done (lineup, pos') →
  valid_lineup players size lineup.
Proof.
  intros Hnd (_ & _ & Hlen & rest & Hperm)%sample_Done_inv.
  split_and!; [|done|].
  - rewrite <- Hperm in Hnd. by apply NoDup_app in Hnd as (? & _).
  - intros x Hx. rewrite <- Hperm. apply elem_of_app. by left.
Qed.

Lemma populate_Done (self : Optimizer) (k : nat) : ∀ acc pos,
  NoDup (players self) →
  (0 ≤ lineup_size self ≤ Z.of_nat (length (players self)))%Z →
  ∃ new,
    populate rng k self acc pos
    = Done (acc ++ new, pos + k * Z.to_nat (lineup_size self))
    ∧ length new = k
    ∧ Forall (valid_lineup (players self) (lineup_size self)) new.
Proof.
  induction k as [|k IH]; intros acc pos Hnd Hsize; simpl.
  - exists []. rewrite app_nil_r, Nat.add_0_r. done.
  - destruct (sample_Done rng (players self) (lineup_size self) pos Hsize)
      as (lineup & rest & Hsample & _).
    unfold create_random_lineup. rewrite (bind_Done _ _ _ _ _ Hsample).
    destruct (IH (acc ++ [lineup]) (pos + Z.to_nat (lineup_size self)) Hnd Hsize)
      as (new & Hnew & Hlen & Hvalid).
    exists (lineup :: new). rewrite Hnew, <- app_assoc. split_and!.
    + do 2 f_equal. lia.
    + simpl. by rewrite Hlen.
    + constructor; [by eapply sample_valid_lineup|done].
Qed.

(** X10. With a duplicate-free roster and a lineup size from 0 to the roster
    size, [initialize_population] returns: the population is
    [population_size] lineups (none for a negative size), each of
    [lineup_size] distinct players of the roster; nothing else of the
    optimizer changes. *)
Theorem initialize_population_valid (self : Optimizer) (pos : nat) :
  NoDup (players self) →
  (0 ≤ lineup_size self ≤ Z.of_nat (length (players self)))%Z →
  ∃ pop pos',
    initialize_population rng self pos = Done (set_population self pop, pos')
    ∧ length pop = Z.to_nat (population_size self)
    ∧ Forall (valid_lineup (players self) (lineup_size self)) pop.
Proof.
  intros Hnd Hsize. unfold initialize_population.
  destruct (populate_Done self (Z.to_nat (population_size self)) [] pos Hnd Hsize)
    as (pop & Hpop & Hlen & Hvalid).
  exists pop. eexists. by rewrite (bind_Done _ _ _ _ _ Hpop).
Qed.

(** X11. The lineup size is clamped from above only: a negative one stays
    negative in the optimizer, and then drawing a lineup raises
    [ValueError], in the random search, in [create_random_lineup] and, for a
    positive population size, in [initialize_population]. *)
Theorem negative_lineup_size_raises (roster : list Ref) (size population_size' : Z)
    (mutation_rate' : Qc) (tournament_size' : Z) (pos : nat) :
  (size < 0)%Z →
  let self := new_optimizer roster size population_size' mutation_rate'
                tournament_size' in
  lineup_size self = size
  ∧ generate_random_lineup rng roster size pos = Raise ValueError
  ∧ create_random_lineup rng self pos = Raise ValueError
  ∧ ((0 < population_size')%Z → initialize_population rng self pos = Raise ValueError).
Proof.
  intros Hneg self.
  assert (Hsize : lineup_size self = size) by (simpl; lia).
  assert (Hcreate : create_random_lineup rng self pos = Raise ValueError).
  { unfold create_random_lineup, sample. rewrite Hsize.
    by rewrite decide_False by lia. }
  split_and!; [done| |done|].
  - unfold generate_random_lineup, sample.
    rewrite (decide_False (P := (Z.of_nat (length roster) < size)%Z)) by lia.
    by rewrite decide_False by lia.
  - intros Hpop. unfold initialize_population, mbind, rand_bind.
    destruct (Z.to_nat (population_size self)) as [|k] eqn:Hk; [simpl in Hk; lia|].
    simpl. unfold mbind, rand_bind. by rewrite Hcreate.
Qed.

(** ** A generation step *)

Lemma order_crossover_valid (roster : list Ref) (size : Z) (parent1 parent2 : list Ref)
    pos child pos' :
  valid_lineup roster size parent1 →
  valid_lineup roster size parent2 →
  order_crossover rng parent1 parent2 pos = Done (child, pos') →
  valid_lineup roster size child.
Proof.
  intros (Hnd1 & Hlen1 & Hsub1) (Hnd2 & Hlen2 & Hsub2)
    (cuts & pos1 & Hcuts & Hrest)%bind_Done_inv.
  apply sample_two in Hcuts as (a & b & -> & Hab & Ha & Hb & ->).
  apply lift_Done_inv in Hrest as [Hcross _].
  destruct (order_crossover_at_structure (a `min` b) (a `max` b) parent1 parent2)
    as (child' & Hchild & Hlen & Hnd & _ & _ & Hin); [done|done|lia|lia|].
  rewrite Hchild in Hcross. injection Hcross as <-.
  split_and!; [done|lia|].
  intros x Hx. destruct (Hin x Hx); [by apply Hsub1|by apply Hsub2].
Qed.

Lemma swap_mutation_valid (self : Optimizer) (roster : list Ref) (size : Z)
    (lineup : list Ref) pos child pos' :
  valid_lineup roster size lineup →
  swap_mutation rng self lineup pos = Done (child, pos') →
  valid_lineup roster size child.
Proof.
  intros (Hnd & Hlen & Hsub) Hmut.
  apply (proj2 (swap_mutation_perm rng self lineup pos)) in Hmut.
  split_and!.
  - by rewrite Hmut.
  - apply Permutation_length in Hmut. lia.
  - intros x Hx. apply Hsub. by rewrite <- Hmut.
Qed.

Lemma offspring_loop_valid (self : Optimizer) (roster : list Ref) (size : Z)
    fitness_scores (k : nat) :
  Forall (valid_lineup roster size) (population self) →
  ∀ new_population pos result pos',
  Forall (valid_lineup roster size) new_population →
  offspring_loop rng k self fitness_scores new_population pos = Done (result, pos') →
  Forall (valid_lineup roster size) result.
Proof.
  intros Hpop. induction k as [|k IH]; intros new_population pos result pos' Hnew; simpl.
  - rewrite ret_Done. by intros [= <- <-].
  - intros (parent1 & pos1 & Hp1 & Hrest)%bind_Done_inv.
    apply bind_Done_inv in Hrest as (parent2 & pos2 & Hp2 & Hrest).
    apply bind_Done_inv in Hrest as (child0 & pos3 & Hcross & Hrest).
    apply bind_Done_inv in Hrest as (child & pos4 & Hmut & Hrest).
    apply tournament_selection_member in Hp1, Hp2.
    rewrite Forall_forall in Hpop.
    apply (IH _ _ _ _) in Hrest; [done|].
    apply Forall_app. split; [done|]. constructor; [|done].
    eapply swap_mutation_valid; [|done].
    eapply order_crossover_valid; [| |done]; by apply Hpop.
Qed.

Lemma evolve_generation_valid (self : Optimizer) (roster : list Ref) (size : Z)
    (num_games innings : Z) (pos : nat) (fitness_scores : list Qc) (best : Qc)
    (self' : Optimizer) (pos' : nat) :
  Forall (valid_lineup roster size) (population self) →
  evolve_generation deref rng fuel self num_games innings pos
  = Done (((fitness_scores, best), self'), pos') →
  Forall (valid_lineup roster size) (population self').
Proof.
  intros Hvalid Hstep.
  pose proof Hstep as (best_idx & elite & children & _ & _ & _ & _ & _ & _ & Helite
                       & Hpop & _)%evolve_generation_Done.
  unfold evolve_generation in Hstep.
  apply bind_Done_inv in Hstep as ([scores self1] & pos1 & Hfit & Hrest).
  apply fitness_loop_Done in Hfit as (Hself1 & _).
  destruct (max_by id scores) as [best'|]; [|done].
  destruct (index best' scores) as [idx|]; [|done].
  assert (Hpop1 : population self1 = population self) by (by rewrite Hself1).
  rewrite Hpop1 in Hrest.
  destruct (population self !! idx) as [elite'|] eqn:Helite'; [|done].
  apply bind_Done_inv in Hrest as (new_population & pos2 & Hoff & Hret).
  rewrite ret_Done in Hret. injection Hret as <- <- <- <-. simpl.
  rewrite Forall_forall in Hvalid.
  eapply offspring_loop_valid; [| |exact Hoff].
  - rewrite Hpop1. by apply Forall_forall.
  - apply Forall_singleton, Hvalid. by eapply list_elem_of_lookup_2.
Qed.

(** X12. A generation step keeps the lineups valid: if every lineup of the
    population is a duplicate-free list of [size] players of the roster, so
    is every lineup of the next population, which has [population_size]
    lineups, and one (the elite) for a population size below 1. *)
Theorem evolve_generation_keeps_valid (self : Optimizer) (roster : list Ref) (size : Z)
    (num_games innings : Z) (pos : nat) (fitness_scores : list Qc) (best : Qc)
    (self' : Optimizer) (pos' : nat) :
  Forall (valid_lineup roster size) (population self) →
  evolve_generation deref rng fuel self num_games innings pos
  = Done (((fitness_scores, best), self'), pos') →
  Forall (valid_lineup roster size) (population self')
  ∧ Z.of_nat (length (population self')) = Z.max 1 (population_size self)
  ∧ self' = set_population (set_fitness_cache self (fitness_cache self'))
              (population self').
Proof.
  intros Hvalid. unfold evolve_generation.
  intros ([scores self1] & pos1 & Hfit & Hrest)%bind_Done_inv.
  apply fitness_loop_Done in Hfit as (Hself1 & _ & new & Hscores & _ & _).
  simpl in Hscores. subst scores.
  destruct (max_by id new) as [best'|]; [|done].
  destruct (index best' new) as [best_idx|]; [|done].
  assert (Hpop : population self1 = population self) by (by rewrite Hself1).
  assert (Hsize : population_size self1 = population_size self) by (by rewrite Hself1).
  rewrite Hpop in Hrest.
  destruct (population self !! best_idx) as [elite|] eqn:Helite; [|done].
  apply bind_Done_inv in Hrest as (new_population & pos2 & Hoff & Hret).
  rewrite ret_Done in Hret. injection Hret as <- <- <- <-.
  pose proof Hoff as (children & -> & Hchildren)%offspring_loop_Done.
  simpl. split_and!.
  - eapply offspring_loop_valid; [| |exact Hoff].
    + by rewrite Hpop.
    + apply Forall_singleton. rewrite Forall_forall in Hvalid. apply Hvalid.
      by eapply list_elem_of_lookup_2.
  - simpl. rewrite Hchildren, Hsize. simpl. lia.
  - rewrite Hself1. done.
Qed.

Lemma evolve_generation_best (self : Optimizer) num_games innings pos
    fitness_scores best self' pos' :
  evolve_generation deref rng fuel self num_games innings pos
  = Done (((fitness_scores, best), self'), pos') →
  holds_fitness deref self' best ∧ ∀ v, holds_fitness deref self v → (v ≤ best)%Qc.
Proof.
  intros (best_idx & elite & children & Hsub & _ & Hscores & Hbest & Hmax & _
          & Helite & Hpop & _)%evolve_generation_Done.
  split.
  - exists elite. split; [rewrite Hpop; by left|].
    destruct (Hscores _ _ Helite) as (f & Hf & Hcache).
    rewrite Hbest in Hf. by injection Hf as <-.
  - intros v (lineup & [i Hi]%list_elem_of_lookup_1 & Hcache).
    destruct (Hscores _ _ Hi) as (f & Hf & Hcache').
    apply (lookup_weaken _ _ _ _ Hcache) in Hsub.
    rewrite Hsub in Hcache'. injection Hcache' as <-.
    apply Hmax. by eapply list_elem_of_lookup_2.
Qed.

Lemma generations_loop_history (k : nat) num_games innings :
  ∀ (self : Optimizer) history pos history' self' pos',
  generations_loop deref rng fuel k self num_games innings history pos
  = Done ((history', self'), pos') →
  ∃ new,
    history' = history ++ new
    ∧ length new = k
    ∧ (∀ i j a b, i ≤ j → new !! i = Some a → new !! j = Some b → (a ≤ b)%Qc)
    ∧ (∀ v b, holds_fitness deref self v → b ∈ new → (v ≤ b)%Qc).
Proof.
  induction k as [|k IH]; intros self history pos history' self' pos'; simpl.
  - rewrite ret_Done. intros [= <- <- <-]. exists []. rewrite app_nil_r.
    split_and!; [done|done| |].
    + intros i j a b _ Hi. by rewrite lookup_nil in Hi.
    + by intros v b _ ?%elem_of_nil.
  - intros ([[scores best] self1] & pos1 & Hgen & Hrest)%bind_Done_inv.
    apply evolve_generation_best in Hgen as [Hholds Hbest].
    apply IH in Hrest as (new & -> & Hlen & Hsorted & Hbound).
    exists (best :: new). rewrite <- app_assoc. split_and!; [done|simpl; lia| |].
    + intros [|i] [|j] a b Hij Hi Hj; simpl in *.
      * injection Hi as <-. injection Hj as <-. apply Qcle_refl.
      * injection Hi as <-. apply (Hbound _ _ Hholds).
        by eapply list_elem_of_lookup_2.
      * lia.
      * apply (Hsorted i j); [lia|done..].
    + intros v b Hv [->|Hb]%elem_of_cons; [by apply Hbest|].
      etrans; [by apply Hbest|]. by apply (Hbound _ _ Hholds).
Qed.

(** X13. Because the elite is carried over and its fitness is read from the
    cache, the best fitness of a generation is never below that of the
    generation before: the history of best fitness values that [optimize]
    collects over its generations is non-decreasing, one value per
    generation. *)
Theorem best_fitness_never_decreases (k : nat) (self : Optimizer) (num_games innings : Z)
    (pos : nat) (best_fitness_history : list Qc) (self' : Optimizer) (pos' : nat) :
  generations_loop deref rng fuel k self num_games innings [] pos
  = Done ((best_fitness_history, self'), pos') →
  length best_fitness_history = k
  ∧ ∀ i j a b, i ≤ j →
      best_fitness_history !! i = Some a → best_fitness_history !! j = Some b →
      (a ≤ b)%Qc.
Proof.
  intros (new & -> & Hlen & Hsorted & _)%generations_loop_history. done.
Qed.
End Population.

(** ** Ranking of results *)

Section Ranking.
Context {Ref : Type}.
Implicit Types l results : list (LineupResult Ref).

Lemma insert_desc_perm {A} (key : A → Qc) (x : A) (l : list A) :
  insert_desc key x l ≡ₚ x :: l.
Proof.
  induction l as [|y l IH]; simpl; [done|].
  case_decide; [|done]. rewrite IH. apply Permutation_swap.
Qed.

Lemma sorted_desc_perm {A} (key : A → Qc) (l : list A) : sorted_desc key l ≡ₚ l.
Proof.
  induction l as [|x l IH]; simpl; [done|].
  unfold sorted_desc in *. simpl. by rewrite insert_desc_perm, IH.
Qed.

Lemma ranked_cons (x : LineupResult Ref) l :
  ranked (x :: l) ↔ (∀ y, y ∈ l → (mean_runs y ≤ mean_runs x)%Qc) ∧ ranked l.
Proof.
  unfold ranked. split.
  - intros Hr. split.
    + intros y [j Hj]%list_elem_of_lookup_1. apply (Hr 0 (S j)); [lia|done..].
    + intros i j a b Hij Hi Hj. apply (Hr (S i) (S j)); [lia|done..].
  - intros [Hhead Hr] [|i] [|j] a b Hij Hi Hj; simpl in *.
    + injection Hi as <-. injection Hj as <-. apply Qcle_refl.
    + injection Hi as <-. apply Hhead. by eapply list_elem_of_lookup_2.
    + lia.
    + apply (Hr i j); [lia|done..].
Qed.

Lemma ranked_nil : ranked (@nil (LineupResult Ref)).
Proof. intros i j a b _ Hi. by rewrite lookup_nil in Hi. Qed.

Lemma insert_desc_ranked (x : LineupResult Ref) l :
  ranked l → ranked (insert_desc mean_runs x l).
Proof.
  induction l as [|y l IH]; intros Hr; simpl.
  - apply ranked_cons. split; [by intros y ?%elem_of_nil|apply ranked_nil].
  - apply ranked_cons in Hr as [Hhead Hr]. case_decide as Hlt.
    + apply ranked_cons. split; [|by apply IH].
      intros z Hz. rewrite insert_desc_perm in Hz.
      apply elem_of_cons in Hz as [->|Hz]; [by apply Qclt_le_weak|by apply Hhead].
    + apply Qcnot_lt_le in Hlt. apply ranked_cons. split.
      * intros z [->|Hz]%elem_of_cons; [done|]. etrans; [by apply Hhead|done].
      * by apply ranked_cons.
Qed.

Lemma sorted_desc_ranked l : ranked (sorted_desc mean_runs l).
Proof.
  induction l as [|x l IH]; [apply ranked_nil|].
  unfold sorted_desc in *. simpl. by apply insert_desc_ranked.
Qed.

Lemma slice_to_take {A} (n : Z) (l : list A) :
  ∃ m, slice_to n l = take m l ∧ ((0 ≤ n)%Z → m = Z.to_nat n).
Proof.
  unfold slice_to. case_decide; eexists; split; done.
Qed.

Lemma ranked_take_drop (m : nat) l :
  ranked l →
  ranked (take m l)
  ∧ ∀ a b, a ∈ take m l → b ∈ drop m l → (mean_runs b ≤ mean_runs a)%Qc.
Proof.
  intros Hr. split.
  - intros i j a b Hij [Hi _]%lookup_take_Some [Hj _]%lookup_take_Some.
    by apply (Hr i j).
  - intros a b [i [Hi Him]%lookup_take_Some]%list_elem_of_lookup_1
      [j Hj]%list_elem_of_lookup_1.
    rewrite lookup_drop in Hj. apply (Hr i (m + j)); [lia|done..].
Qed.
End Ranking.

(** ** The whole run of the genetic optimizer *)

Section Run.
Context {Ref : Type} `{EqDecision Ref}.
Variable deref : Ref → Player.
Variable rng : nat → nat.
Variable fuel : nat.

Local Abbreviation Optimizer := (GeneticLineupOptimizer Ref).

Lemma populate_Done_inv (self : Optimizer) (k : nat) : ∀ acc pos pop pos',
  populate rng k self acc pos = Done (pop, pos') →
  ∃ new, pop = acc ++ new ∧ length new = k
         ∧ (NoDup (players self) →
            Forall (valid_lineup (players self) (lineup_size self)) new).
Proof.
  induction k as [|k IH]; intros acc pos pop pos'; simpl.
  - rewrite ret_Done. intros [= <- <-]. exists []. by rewrite app_nil_r.
  - intros (lineup & pos1 & Hsample & Hrest)%bind_Done_inv.
    apply IH in Hrest as (new & -> & Hlen & Hvalid).
    exists (lineup :: new). rewrite <- app_assoc. split_and!; [done|simpl; lia|].
    intros Hnd. constructor; [by eapply sample_valid_lineup|by apply Hvalid].
Qed.

Lemma initialize_population_Done_inv (self self1 : Optimizer) pos pos1 :
  initialize_population rng self pos = Done (self1, pos1) →
  self1 = set_population self (population self1)
  ∧ length (population self1) = Z.to_nat (population_size self)
  ∧ (NoDup (players self) →
     Forall (valid_lineup (players self) (lineup_size self)) (population self1)).
Proof.
  unfold initialize_population.
  intros (pop & pos2 & Hpop & Hret)%bind_Done_inv.
  rewrite ret_Done in Hret. injection Hret as <- <-.
  apply populate_Done_inv in Hpop as (new & -> & Hlen & Hvalid). done.
Qed.

Lemma generations_loop_valid (roster : list Ref) (size : Z) num_games innings (k : nat) :
  ∀ (self : Optimizer) history pos history' self' pos',
  Forall (valid_lineup roster size) (population self) →
  generations_loop deref rng fuel k self num_games innings history pos
  = Done ((history', self'), pos') →
  Forall (valid_lineup roster size) (population self').
Proof.
  induction k as [|k IH]; intros self history pos history' self' pos' Hvalid; simpl.
  - rewrite ret_Done. by intros [= <- <- <-].
  - intros ([[scores best] self1] & pos1 & Hgen & Hrest)%bind_Done_inv.
    eapply evolve_generation_valid in Hgen; [|done].
    by eapply IH.
Qed.

Lemma final_loop_Done_inv num_games innings (lineups : list (list Ref)) :
  ∀ acc pos results pos',
  final_loop deref rng fuel lineups num_games innings acc pos = Done (results, pos') →
  ∃ new, results = acc ++ new
         ∧ lineup <$> new = lineups
         ∧ Forall (λ r, Z.of_nat (total_games r) = (num_games * 2)%Z) new.
Proof.
  induction lineups as [|l lineups IH]; intros acc pos results pos'; simpl.
  - rewrite ret_Done. intros [= <- <-]. exists []. by rewrite app_nil_r.
  - intros (r & pos1 & Heval & Hrest)%bind_Done_inv.
    apply evaluate_lineup_fields in Heval as (Hl & Hlen & Htotal).
    apply IH in Hrest as (new & -> & Hlineups & Hgames).
    exists (r :: new). rewrite <- app_assoc. split_and!; [done| |].
    + by rewrite fmap_cons, Hl, Hlineups.
    + constructor; [lia|done].
Qed.

Lemma optimize_Done_inv (self : Optimizer) generations num_games innings verbose pos
    results self' pos' :
  optimize deref rng fuel self generations num_games innings verbose pos
  = Done ((results, self'), pos') →
  ∃ self1 pos1 history pos2 final,
    initialize_population rng self pos = Done (self1, pos1)
    ∧ generations_loop deref rng fuel (Z.to_nat generations) self1 num_games innings
        [] pos1 = Done ((history, self'), pos2)
    ∧ final_loop deref rng fuel (population self') num_games innings [] pos2
      = Done (final, pos')
    ∧ results = sorted_desc mean_runs final
    ∧ (verbose = true → history ≠ [] ∧ final ≠ []).
Proof.
  unfold optimize.
  intros (self1 & pos1 & Hinit & Hrest)%bind_Done_inv.
  apply bind_Done_inv in Hrest as ([history self2] & pos2 & Hgens & Hrest).
  apply bind_Done_inv in Hrest as (final & pos3 & Hfinal & Hrest).
  exists self1, pos1, history, pos2, final.
  destruct verbose.
  - destruct history as [|b history]; [done|]. destruct final as [|r final]; [done|].
    rewrite ret_Done in Hrest. injection Hrest as <- <- <-. done.
  - rewrite ret_Done in Hrest. injection Hrest as <- <- <-. done.
Qed.

(** X14. [optimize] returns one result per lineup of the last population,
    ranked by mean runs, greatest first, each evaluated over
    [2 * num_games] games; over a duplicate-free roster every lineup it
    returns is a list of [lineup_size] distinct players of the roster. *)
Theorem optimize_results (self : Optimizer) (generations num_games innings : Z)
    (verbose : bool) (pos : nat) (results : list (LineupResult Ref))
    (self' : Optimizer) (pos' : nat) :
  NoDup (players self) →
  optimize deref rng fuel self generations num_games innings verbose pos
  = Done ((results, self'), pos') →
  ranked results
  ∧ lineup <$> results ≡ₚ population self'
  ∧ Forall (λ r, valid_lineup (players self) (lineup_size self) (lineup r)
                 ∧ Z.of_nat (total_games r) = (num_games * 2)%Z) results.
Proof.
  intros Hnd (self1 & pos1 & history & pos2 & final & Hinit & Hgens & Hfinal & -> & _)
    %optimize_Done_inv.
  apply initialize_population_Done_inv in Hinit as (_ & _ & Hvalid).
  eapply generations_loop_valid in Hgens; [|by apply Hvalid].
  apply final_loop_Done_inv in Hfinal as (new & Hnew & Hlineups & Hgames).
  simpl in Hnew. subst final.
  split_and!.
  - apply sorted_desc_ranked.
  - rewrite <- Hlineups. apply fmap_Permutation, sorted_desc_perm.
  - rewrite sorted_desc_perm. apply Forall_forall. intros r Hr. split.
    + rewrite Forall_forall in Hgens. apply Hgens. rewrite <- Hlineups.
      by apply list_elem_of_fmap_2.
    + rewrite Forall_forall in Hgames. by apply Hgames.
Qed.

(** X15. Edge cases of [optimize]. With a population size of 0 or less the
    first generation finds no fitness score and raises [ValueError]; without
    a generation to run the population comes back empty. With [verbose] and
    no generation to run, the closing message reads the first entry of an
    empty history: a call that returns without [verbose] raises
    [IndexError] with it. *)
Theorem optimize_edge_cases (self : Optimizer) (generations num_games innings : Z)
    (pos : nat) :
  ((population_size self ≤ 0)%Z → (0 < generations)%Z →
     ∀ verbose,
       optimize deref rng fuel self generations num_games innings verbose pos
       = Raise ValueError)
  ∧ ((population_size self ≤ 0)%Z → (generations ≤ 0)%Z →
     optimize deref rng fuel self generations num_games innings false pos
     = Done (([], set_population self []), pos))
  ∧ ((generations ≤ 0)%Z →
     ∀ r,
       optimize deref rng fuel self generations num_games innings false pos = Done r →
       optimize deref rng fuel self generations num_games innings true pos
       = Raise IndexError).
Proof.
  split_and!.
  - intros Hpop Hgen verbose. unfold optimize, initialize_population.
    replace (Z.to_nat (population_size self)) with 0 by lia.
    destruct (Z.to_nat generations) as [|k] eqn:Hk; [lia|]. done.
  - intros Hpop Hgen. unfold optimize, initialize_population.
    replace (Z.to_nat (population_size self)) with 0 by lia.
    replace (Z.to_nat generations) with 0 by lia. done.
  - intros Hgen r. unfold optimize.
    replace (Z.to_nat generations) with 0 by lia.
    unfold mbind, rand_bind.
    destruct (initialize_population rng self pos) as [[self1 pos1]| |]; [|done..].
    simpl.
    by destruct (final_loop deref rng fuel (population self1) num_games innings []
                   pos1) as [[final pos2]| |].
Qed.

(** ** Totality of a generation step *)

Lemma offspring_loop_total (self : Optimizer) (roster : list Ref) (size : Z)
    (fitness_scores : list Qc) :
  Forall (valid_lineup roster size) (population self) →
  (2 ≤ size)%Z →
  (1 ≤ tournament_size self ≤ Z.of_nat (length (population self)))%Z →
  length fitness_scores = length (population self) →
  ∀ k new_population pos,
  ∃ result pos',
    offspring_loop rng k self fitness_scores new_population pos = Done (result, pos').
Proof.
  intros Hvalid Hsize Hts Hscores.
  rewrite Forall_forall in Hvalid.
  induction k as [|k IH]; intros new_population pos; simpl; [eauto|].
  destruct (tournament_selection_returns rng self (population self)
              fitness_scores pos Hscores Hts) as (parent1 & Hp1 & Hin1).
  rewrite (bind_Done _ _ _ _ _ Hp1).
  destruct (tournament_selection_returns rng self (population self)
              fitness_scores (pos + Z.to_nat (tournament_size self)) Hscores Hts)
    as (parent2 & Hp2 & Hin2).
  rewrite (bind_Done _ _ _ _ _ Hp2).
  destruct (Hvalid _ Hin1) as (Hnd1 & Hlen1 & _).
  destruct (Hvalid _ Hin2) as (Hnd2 & Hlen2 & _).
  set (pos2 := pos + Z.to_nat (tournament_size self) + Z.to_nat (tournament_size self)).
  destruct (order_crossover_returns rng parent1 parent2 pos2)
    as [child0 Hcross]; [lia|done|done|lia|].
  pose proof (order_crossover_valid rng roster size parent1 parent2 _ _ _
                (Hvalid _ Hin1) (Hvalid _ Hin2) Hcross) as (_ & Hlen0 & _).
  rewrite (bind_Done _ _ _ _ _ Hcross).
  destruct (proj1 (swap_mutation_perm rng self child0 (pos2 + 2)))
    as (child & pos4 & Hmut); [lia|].
  rewrite (bind_Done _ _ _ _ _ Hmut). apply IH.
Qed.

(** X16. Once the fitness of the population has been evaluated, a generation
    step cannot fail: for a non-empty population of valid lineups of two
    players or more and a tournament size from 1 to the population size,
    [evolve_generation] returns the scores of that evaluation. *)
Theorem evolve_generation_total (self : Optimizer) (roster : list Ref) (size : Z)
    (num_games innings : Z) (pos : nat) (fitness_scores : list Qc)
    (self1 : Optimizer) (pos1 : nat) :
  fitness_loop deref rng fuel (population self) self num_games innings [] pos
  = Done ((fitness_scores, self1), pos1) →
  population self ≠ [] →
  Forall (valid_lineup roster size) (population self) →
  (2 ≤ size)%Z →
  (1 ≤ tournament_size self ≤ Z.of_nat (length (population self)))%Z →
  ∃ best self' pos',
    evolve_generation deref rng fuel self num_games innings pos
    = Done (((fitness_scores, best), self'), pos').
Proof.
  intros Hfit Hne Hvalid Hsize Hts. unfold evolve_generation.
  rewrite (bind_Done _ _ _ _ _ Hfit). simpl.
  apply fitness_loop_Done in Hfit as (Hself1 & _ & new & Hscores & Hlen & _).
  simpl in Hscores. subst fitness_scores.
  assert (Hpop : population self1 = population self) by (by rewrite Hself1).
  assert (Htsize : tournament_size self1 = tournament_size self) by (by rewrite Hself1).
  destruct (max_by id new) as [best|] eqn:Hmax.
  2:{ destruct new; [|done]. destruct (population self); [done|]. done. }
  pose proof Hmax as [Hin _]%max_by_spec.
  destruct (index best new) as [best_idx|] eqn:Hidx.
  2:{ unfold index in Hidx.
      destruct (list_find_elem_of (λ y, y = best) new best Hin eq_refl) as [x Hx].
      by rewrite Hx in Hidx. }
  apply index_spec in Hidx as [Hbest _].
  apply lookup_lt_Some in Hbest. rewrite Hlen in Hbest.
  rewrite Hpop.
  destruct (lookup_lt_is_Some_2 (population self) best_idx Hbest) as [elite Helite].
  rewrite Helite.
  destruct (offspring_loop_total self1 roster size new) with
    (k := Z.to_nat (population_size self1 - Z.of_nat (length [elite])))
    (new_population := [elite]) (pos := pos1) as (result & pos2 & Hoff);
    [by rewrite Hpop|done|by rewrite Hpop, Htsize|by rewrite Hpop|].
  rewrite (bind_Done _ _ _ _ _ Hoff). rewrite ret_Done. eauto.
Qed.
End Run.

(** ** The random search and the two-phase run *)

Section Search.
Context {Ref : Type} `{EqDecision Ref}.
Variable deref : Ref → Player.
Variable rng : nat → nat.
Variable fuel : nat.



Lemma optimize_lineups_Done_inv (roster : list Ref)
    (num_lineups num_games top_n size innings : Z) pos results pos' :
  optimize_lineups deref rng fuel roster num_lineups num_games top_n size innings pos
  = Done (results, pos') →
  ∃ evaluated m,
    search_loop deref rng fuel (Z.to_nat num_lineups) roster size num_games innings [] pos
    = Done (evaluated, pos')
    ∧ results = take m (sorted_desc mean_runs evaluated)
    ∧ ((0 ≤ top_n)%Z → m = Z.to_nat top_n).
Proof.
  unfold optimize_lineups.
  intros (evaluated & pos1 & Hsearch & Hret)%bind_Done_inv.
  rewrite ret_Done in Hret. injection Hret as <- <-.
  destruct (slice_to_take top_n (sorted_desc mean_runs evaluated)) as (m & Hm & Htop).
  exists evaluated, m. by rewrite Hm.
Qed.


(** X18. With nothing to report, the verbose random phase fails: for
    [num_lineups <= 0] it raises [IndexError] where the quiet one returns no
    result, and for [seed_size = 0] it never returns. *)
Theorem run_random_phase_empty (roster : list Ref)
    (num_lineups num_games size innings seed_size : Z) (pos : nat) :
  ((num_lineups ≤ 0)%Z →
     run_random_phase deref rng fuel roster num_lineups num_games size innings
       seed_size true pos = Raise IndexError
     ∧ run_random_phase deref rng fuel roster num_lineups num_games size innings
         seed_size false pos = Done ([], pos))
  ∧ (seed_size = 0%Z →
     ∀ r,
       run_random_phase deref rng fuel roster num_lineups num_games size innings
         seed_size true pos ≠ Done r).
Proof.
  split.
  - intros Hnone.
    assert (Hsearch : optimize_lineups deref rng fuel roster num_lineups num_games
                        seed_size size innings pos = Done ([], pos)).
    { unfold optimize_lineups. replace (Z.to_nat num_lineups) with 0 by lia.
      simpl. unfold mbind, rand_bind. rewrite !ret_Done.
      unfold slice_to, sorted_desc. simpl. case_decide; by rewrite take_nil. }
    unfold run_random_phase. by rewrite !(bind_Done _ _ _ _ _ Hsearch).
  - intros -> [results pos'] Hrun. unfold run_random_phase in Hrun.
    apply bind_Done_inv in Hrun as (found & pos1 & Hfound & Hrest).
    apply optimize_lineups_Done_inv in Hfound as (evaluated & m & _ & -> & Htop).
    rewrite Htop in Hrest by done. done.
Qed.

(** X19. The combined ranking of the two-phase run holds the results of
    both phases, ranked by mean runs; the best lineup is its first entry,
    with a mean at least that of every result of either phase, and it is
    missing only if both phases return nothing. The results of each phase
    are ranked as well. *)
Theorem master_optimize_combined (roster : list Ref)
    (num_random_lineups seed_size population_size' generations num_games : Z)
    (size innings : Z) (mutation_rate' : Qc) (tournament_size' : Z) (pos : nat)
    (found : MasterResults Ref) (pos' : nat) :
  master_optimize deref rng fuel roster num_random_lineups seed_size population_size'
    generations num_games size innings mutation_rate' tournament_size' pos
  = Done (found, pos') →
  all_combined found ≡ₚ random_results found ++ ga_results found
  ∧ ranked (all_combined found)
  ∧ ranked (random_results found)
  ∧ ranked (ga_results found)
  ∧ best_lineup found = head (all_combined found)
  ∧ (∀ best r, best_lineup found = Some best →
       r ∈ random_results found ++ ga_results found →
       (mean_runs r ≤ mean_runs best)%Qc)
  ∧ (best_lineup found = None ↔ random_results found = [] ∧ ga_results found = []).
Proof.
  unfold master_optimize.
  intros (random & pos1 & Hrandom & Hrest)%bind_Done_inv.
  apply bind_Done_inv in Hrest as (ga & pos2 & Hga & Hret).
  rewrite ret_Done in Hret. injection Hret as <- <-. simpl.
  set (combined := sorted_desc mean_runs (random ++ ga)).
  assert (Hperm : combined ≡ₚ random ++ ga) by apply sorted_desc_perm.
  assert (Hranked : ranked combined) by apply sorted_desc_ranked.
  split_and!; [done|done| | |done| |].
  - unfold run_random_phase in Hrandom.
    apply bind_Done_inv in Hrandom as (results & pos3 & Hsearch & Hret).
    rewrite ret_Done in Hret. injection Hret as <- <-.
    apply optimize_lineups_Done_inv in Hsearch as (evaluated & m & _ & -> & _).
    apply ranked_take_drop, sorted_desc_ranked.
  - unfold run_genetic_phase in Hga.
    apply bind_Done_inv in Hga as (seeded & pos3 & _ & Hrest).
    apply bind_Done_inv in Hrest as ([results self'] & pos4 & Hopt & Hret).
    rewrite ret_Done in Hret. injection Hret as <- <-.
    apply optimize_Done_inv in Hopt as (? & ? & ? & ? & final & _ & _ & _ & -> & _).
    apply sorted_desc_ranked.
  - intros best r Hbest Hr. rewrite <- Hperm in Hr.
    destruct combined as [|b combined']; [done|]. injection Hbest as ->.
    apply ranked_cons in Hranked as [Hhead _].
    apply elem_of_cons in Hr as [->|Hr]; [apply Qcle_refl|by apply Hhead].
  - rewrite head_None. split.
    + intros Hnil. rewrite Hnil in Hperm. apply Permutation_nil_l in Hperm.
      symmetry in Hperm. by apply app_eq_nil in Hperm.
    + intros [Hr Hg]. apply Permutation_nil_r. by rewrite Hperm, Hr, Hg.
Qed.
End Search.

(** ** The properties on the two-player roster *)

Lemma pair_roster_NoDup : NoDup [ann; bea].
Proof. by apply (bool_decide_unpack _). Qed.

Lemma pair_population_valid :
  Forall (valid_lineup [ann; bea] 2) (population pair_optimizer).
Proof.
  assert (Hv : ∀ l, l ≡ₚ [ann; bea] → valid_lineup [ann; bea] 2 l).
  { intros l Hl. split_and!.
    - rewrite Hl. apply pair_roster_NoDup.
    - apply Permutation_length in Hl. by rewrite Hl.
    - intros x Hx. by rewrite <- Hl. }
  apply Forall_cons_2; [by apply Hv|].
  apply Forall_cons_2; [apply Hv, Permutation_swap|]. apply Forall_nil_2.
Qed.

Lemma initialize_population_valid_witness :
  ∃ pop pos',
    initialize_population zeros (new_optimizer [ann; bea] 9 3 0%Qc 1) 0
    = Done (set_population (new_optimizer [ann; bea] 9 3 0%Qc 1) pop, pos')
    ∧ length pop = 3.
Proof.
  destruct (initialize_population_valid zeros (new_optimizer [ann; bea] 9 3 0%Qc 1) 0
              pair_roster_NoDup ltac:(simpl; lia)) as (pop & pos' & Hinit & Hlen & _).
  by exists pop, pos'.
Defined.

Lemma negative_lineup_size_raises_witness :
  (-1 < 0)%Z ∧ generate_random_lineup zeros [ann; bea] (-1) 0 = Raise ValueError.
Proof.
  assert (Hneg : (-1 < 0)%Z) by lia.
  destruct (negative_lineup_size_raises zeros [ann; bea] (-1) 3 0%Qc 1 0 Hneg)
    as (_ & Hgen & _).
  split; [exact Hneg | exact Hgen].
Defined.

Lemma evolve_generation_keeps_valid_witness :
  ∃ fitness_scores best self' pos',
    evolve_generation id zeros 3 pair_optimizer 1 1 0
    = Done (((fitness_scores, best), self'), pos')
    ∧ Forall (valid_lineup [ann; bea] 2) (population self')
    ∧ Z.of_nat (length (population self')) = 2%Z.
Proof.
  assert (Hstep : ∃ r, evolve_generation id zeros 3 pair_optimizer 1 1 0 = Done r)
    by (eexists; vm_compute; reflexivity).
  destruct Hstep as [[[[fitness_scores best] self'] pos'] Hstep].
  destruct (evolve_generation_keeps_valid id zeros 3 pair_optimizer [ann; bea] 2 1 1 0
              fitness_scores best self' pos' pair_population_valid Hstep)
    as (Hvalid & Hlen & _).
  by exists fitness_scores, best, self', pos'.
Defined.

Lemma best_fitness_never_decreases_witness :
  ∃ history self' pos',
    generations_loop id zeros 3 2 pair_optimizer 1 1 [] 0 = Done ((history, self'), pos')
    ∧ length history = 2.
Proof.
  assert (Hrun : ∃ r, generations_loop id zeros 3 2 pair_optimizer 1 1 [] 0 = Done r)
    by (eexists; vm_compute; reflexivity).
  destruct Hrun as [[[history self'] pos'] Hrun].
  destruct (best_fitness_never_decreases id zeros 3 2 pair_optimizer 1 1 0
              history self' pos' Hrun) as [Hlen _].
  by exists history, self', pos'.
Defined.

Lemma optimize_results_witness :
  ∃ results self' pos',
    optimize id zeros 3 (new_optimizer [ann; bea] 2 2 0%Qc 1) 1 1 1 false 0
    = Done ((results, self'), pos')
    ∧ ranked results
    ∧ lineup <$> results ≡ₚ population self'.
Proof.
  assert (Hrun : ∃ r, optimize id zeros 3 (new_optimizer [ann; bea] 2 2 0%Qc 1)
                        1 1 1 false 0 = Done r)
    by (eexists; vm_compute; reflexivity).
  destruct Hrun as [[[results self'] pos'] Hrun].
  destruct (optimize_results id zeros 3 (new_optimizer [ann; bea] 2 2 0%Qc 1) 1 1 1
              false 0 results self' pos' pair_roster_NoDup Hrun)
    as (Hranked & Hperm & _).
  by exists results, self', pos'.
Defined.

Lemma optimize_edge_cases_witness :
  optimize id zeros 3 (new_optimizer [ann; bea] 2 0 0%Qc 1) 1 1 1 true 0
  = Raise ValueError
  ∧ optimize id zeros 3 (new_optimizer [ann; bea] 2 2 0%Qc 1) 0 1 1 true 0
    = Raise IndexError.
Proof.
  destruct (optimize_edge_cases id zeros 3 (new_optimizer [ann; bea] 2 0 0%Qc 1) 1 1 1 0)
    as (Hnone & _).
  destruct (optimize_edge_cases id zeros 3 (new_optimizer [ann; bea] 2 2 0%Qc 1) 0 1 1 0)
    as (_ & _ & Hverbose).
  split.
  - apply Hnone; simpl; lia.
  - assert (Hquiet : ∃ r, optimize id zeros 3 (new_optimizer [ann; bea] 2 2 0%Qc 1)
                            0 1 1 false 0 = Done r)
      by (eexists; vm_compute; reflexivity).
    destruct Hquiet as [r Hquiet]. apply (Hverbose ltac:(lia) r Hquiet).
Defined.

Lemma evolve_generation_total_witness :
  ∃ fitness_scores best self' pos',
    evolve_generation id zeros 3 pair_optimizer 1 1 0
    = Done (((fitness_scores, best), self'), pos').
Proof.
  assert (Hfit : ∃ r, fitness_loop id zeros 3 (population pair_optimizer) pair_optimizer
                        1 1 [] 0 = Done r)
    by (eexists; vm_compute; reflexivity).
  destruct Hfit as [[[fitness_scores self1] pos1] Hfit].
  destruct (evolve_generation_total id zeros 3 pair_optimizer [ann; bea] 2 1 1 0
              fitness_scores self1 pos1 Hfit ltac:(done) pair_population_valid
              ltac:(lia) ltac:(simpl; lia)) as (best & self' & pos' & Hstep).
  by exists fitness_scores, best, self', pos'.
Defined.


Lemma run_random_phase_empty_witness :
  run_random_phase id zeros 3 [ann; bea] 0 1 2 1 5 true 0 = Raise IndexError
  ∧ run_random_phase id zeros 3 [ann; bea] 0 1 2 1 5 false 0 = Done ([], 0).
Proof.
  destruct (run_random_phase_empty id zeros 3 [ann; bea] 0 1 2 1 5 0) as [Hnone _].
  apply Hnone. lia.
Defined.

Lemma master_optimize_combined_witness :
  ∃ found pos',
    master_optimize id zeros 3 [ann; bea] 2 1 2 1 1 2 1 0%Qc 1 0 = Done (found, pos')
    ∧ all_combined found ≡ₚ random_results found ++ ga_results found
    ∧ best_lineup found = head (all_combined found).
Proof.
  assert (Hrun : ∃ r, master_optimize id zeros 3 [ann; bea] 2 1 2 1 1 2 1 0%Qc 1 0
                      = Done r)
    by (eexists; vm_compute; reflexivity).
  destruct Hrun as [[found pos'] Hrun].
  destruct (master_optimize_combined id zeros 3 [ann; bea] 2 1 2 1 1 2 1 0%Qc 1 0
              found pos' Hrun) as (Hperm & _ & _ & _ & Hbest & _).
  by exists found, pos'.
Defined.

Lemma evaluate_lineup_result_witness :
  evaluate_lineup id zeros 3 [ann; bea] 0 1 0 = Raise StatisticsError
  ∧ ∃ result pos',
      evaluate_lineup id zeros 3 [ann; bea] 2 1 0 = Done (result, pos')
      ∧ lineup result = [ann; bea]
      ∧ Z.of_nat (length (runs_per_game result)) = 2%Z
      ∧ (Qc_of_Z (Z.of_nat 0) ≤ mean_runs result ≤ Qc_of_Z (Z.of_nat 0))%Qc.
Proof.
  destruct (evaluate_lineup_result id zeros 3 [ann; bea] 0 1 0) as [Hnone _].
  destruct (evaluate_lineup_result id zeros 3 [ann; bea] 2 1 0) as [_ Hdone].
  split; [apply Hnone; lia|].
  assert (Hrun : ∃ r, evaluate_lineup id zeros 3 [ann; bea] 2 1 0 = Done r)
    by (eexists; vm_compute; reflexivity).
  destruct Hrun as [[result pos'] Hrun].
  destruct (Hdone result pos' Hrun) as (_ & Hlineup & Hlen & _ & Hmean & _).
  assert (Hruns : runs_per_game result = [0; 0]).
  { vm_compute in Hrun. by injection Hrun as <- _. }
  destruct (Hmean 0 0) as [Hlo Hhi].
  { intros r. rewrite Hruns. intros [->|[->|[]%elem_of_nil]%elem_of_cons]%elem_of_cons; lia. }
  exists result, pos'. split_and!; [exact Hrun|exact Hlineup|exact Hlen|exact Hlo|exact Hhi].
Defined.
